(** * compare.ipynb: resource counts for ground-state energy estimation

    A shallow embedding of the logic written in the notebook [compare.ipynb]:
    the two conversion functions [preprocess_hamiltonian] and
    [cirq_pauli_sum_to_qiskit_pauli_op], the Trotter-step count, the
    shot-count table, and the order in which the cells call their libraries.

    The libraries the notebook calls (openfermion, cirq, qiskit, numpy) are
    not part of the notebook; they are modelled, after their behaviour, as
    far as the notebook's functions depend on them.  The progress messages
    the functions print are left out.

    Conventions.
    - In the two conversion functions a coefficient is the exact value of
      its double, a rational ([Qc]), and a complex coefficient a pair of
      them: the functions copy and compare coefficients and do no
      arithmetic that rounds.  The cells that compute with floats (the
      Trotter-step count and the shot-count table) are modelled on IEEE
      binary64 numbers ([spec_float] with a 53-bit mantissa), with their
      rounding, infinities and NaN.
    - A Python [dict] is an association list in insertion order, looked up
      by key; a [frozenset] of (qubit, Pauli) pairs is a [gmap nat Pauli].
    - A raised exception is a value of [exn]; a function that can raise
      returns a [result].
    - The objects a function can reach (its arguments and its locals) are
      the fields of a frame record threaded through its loop, so that what
      the function mutates is visible in the model. *)

From Stdlib Require Import ZArith QArith Qcanon Qcabs Qround SpecFloat.
From Stdlib Require Import Ascii String List.
From Stdlib Require Import Decimal DecimalFacts DecimalNat DecimalString.
From stdpp Require Import base option list gmap strings numbers sorting.

Local Open Scope string_scope.
Local Open Scope list_scope.

(** ** Python runtime *)

Module Py.

(** The exceptions that the modelled code can raise. *)
Inductive exn : Type :=
| StopIteration
| AssertionError
| ValueError
| IndexError
| KeyError
| NameError (name : string)
| OverflowError
| QiskitError.

Inductive result (A : Type) : Type :=
| Ok (a : A)
| Raise (e : exn).
Arguments Ok {A} a.
Arguments Raise {A} e.

(** Sequencing: an exception raised on the left skips what follows. *)
Global Instance result_ret : MRet result := fun A a => Ok a.
Global Instance result_bind : MBind result := fun A B k m =>
  match m with
  | Ok a => k a
  | Raise e => Raise e
  end.

(** [next(iter(xs))] on a sequence. *)
Definition next_iter {A} (xs : list A) : result A :=
  match xs with
  | x :: _ => Ok x
  | [] => Raise StopIteration
  end.

(** [xs[i]] on a list. *)
Definition getitem {A} (xs : list A) (i : nat) : result A :=
  match xs !! i with
  | Some x => Ok x
  | None => Raise IndexError
  end.

(** *** [dict]: an insertion-ordered map *)
Section dict.
Context {K V : Type} `{EqDecision K}.

(** [d.get(k)] *)
Fixpoint dict_get (d : list (K * V)) (k : K) : option V :=
  match d with
  | [] => None
  | (k', v) :: d' => if decide (k = k') then Some v else dict_get d' k
  end.

(** [d[k] = v]: an existing key keeps its position, a new key goes last. *)
Fixpoint dict_set (d : list (K * V)) (k : K) (v : V) : list (K * V) :=
  match d with
  | [] => [(k, v)]
  | (k', v') :: d' =>
      if decide (k = k') then (k, v) :: d' else (k', v') :: dict_set d' k v
  end.

(** [del d[k]] for a key that may be absent. *)
Fixpoint dict_del (d : list (K * V)) (k : K) : list (K * V) :=
  match d with
  | [] => []
  | (k', v') :: d' =>
      if decide (k = k') then d' else (k', v') :: dict_del d' k
  end.
End dict.

(** *** [str] *)

(** [sep.join(parts)] *)
Fixpoint join (sep : string) (parts : list string) : string :=
  match parts with
  | [] => ""
  | [p] => p
  | p :: ps => p +:+ sep +:+ join sep ps
  end.

(** [str(n)] for a non-negative [int]. *)
Definition str (n : nat) : string := NilEmpty.string_of_uint (Nat.to_uint n).

(** [c.isspace()] for the ASCII range. *)
Definition isspace (c : ascii) : bool :=
  let n := nat_of_ascii c in
  (n =? 32)%nat || ((9 <=? n)%nat && (n <=? 13)%nat) || ((28 <=? n)%nat && (n <=? 31)%nat).

(** [c.isdigit()] for the ASCII range. *)
Definition isdigit (c : ascii) : bool :=
  let n := nat_of_ascii c in (48 <=? n)%nat && (n <=? 57)%nat.

(** [s.split()]: the maximal runs of non-space characters.  [cur] holds
    the characters of the run being read, last one first. *)
Fixpoint split_aux (cur : list ascii) (s : list ascii) : list string :=
  match s with
  | [] =>
      match cur with
      | [] => []
      | _ => [string_of_list_ascii (rev cur)]
      end
  | c :: s' =>
      if isspace c then
        match cur with
        | [] => split_aux [] s'
        | _ => string_of_list_ascii (rev cur) :: split_aux [] s'
        end
      else split_aux (c :: cur) s'
  end.

Definition split (s : string) : list string :=
  split_aux [] (list_ascii_of_string s).

(** [int(s)] for a string of decimal digits. *)
Definition int (s : string) : result nat :=
  match s with
  | EmptyString => Raise ValueError
  | _ =>
      match NilEmpty.uint_of_string s with
      | Some d => Ok (Nat.of_uint d)
      | None => Raise ValueError
      end
  end.

End Py.

(** ** Numbers *)

Module Num.

Local Open Scope Qc_scope.

(** A Python [complex]. *)
Record complex : Type := Complex { real : Qc; imag : Qc }.

Global Instance complex_eq_dec : EqDecision complex.
Proof. solve_decision. Defined.

Definition of_real (x : Qc) : complex := Complex x 0.
Definition czero : complex := of_real 0.

Definition cadd (a b : complex) : complex :=
  Complex (real a + real b) (imag a + imag b).

Definition cmul (a b : complex) : complex :=
  Complex (real a * real b - imag a * imag b)
          (real a * imag b + imag a * real b).

(** [c != 0] *)
Definition nonzero (c : complex) : bool :=
  negb (bool_decide (real c = 0) && bool_decide (imag c = 0)).

(** [np.isclose(a, b, atol=atol)] with numpy's default [rtol = 1e-5]:
    [|a - b| <= atol + rtol * |b|]. *)
Definition rtol : Qc := Q2Qc (1 # 100000).

Definition isclose (a b atol : Qc) : bool :=
  bool_decide (Qcabs (a - b) <= atol + rtol * Qcabs b).

(** What Python's [round(x)] with one argument returns for a float of the
    value [x]: the nearest integer, a tie going to the even neighbour. *)
Definition round (x : Qc) : Z :=
  let f := Qfloor x in
  let r := (x - Q2Qc (inject_Z f)) in
  if bool_decide (r < Q2Qc (1 # 2)) then f
  else if bool_decide (Q2Qc (1 # 2) < r) then (f + 1)%Z
  else if Z.even f then f else (f + 1)%Z.

End Num.

(** ** Floats: IEEE binary64

    A Python [float] and a [numpy.float64] are doubles.  They are the
    [spec_float]s of the Standard Library with a 53-bit mantissa, and the
    operations are the library's, which round to the nearest double, a tie
    going to the even mantissa. *)

Module Float.
Import Py.

Definition prec : BinNums.Z := 53.
Definition emax : BinNums.Z := 1024.

Definition float : Type := spec_float.

(** [x * y] *)
Definition mul (x y : float) : float := SFmul prec emax x y.

(** [x / y] for a divisor other than zero. *)
Definition div (x y : float) : float := SFdiv prec emax x y.

(** [float(n)] *)
Definition of_int (n : BinNums.Z) : float := binary_normalize prec emax n 0 false.

(** The decimal literal that stands for [n / d], for small [n] and [d]:
    Python reads a literal as the double nearest to its value, which the
    correctly rounded quotient of the two integers is. *)
Definition literal (n d : BinNums.Z) : float := div (of_int n) (of_int d).

(** [x ** 2]: the C library's [pow(x, 2.0)], the product of [x] with
    itself, rounded once. *)
Definition square (x : float) : float := mul x x.

(** The value of a finite double; zero for the zeros. *)
Definition value (x : float) : Qc :=
  match x with
  | S754_finite s m e => Q2Qc (inject_Z (cond_Zopp s (Zpos m)) * (2 # 1) ^ e)%Q
  | _ => Q2Qc 0
  end.

(** [round(x)]: the integer nearest to the value of the double; an
    infinity and NaN have none. *)
Definition round (x : float) : result BinNums.Z :=
  match x with
  | S754_nan => Raise ValueError
  | S754_infinity _ => Raise OverflowError
  | _ => Ok (Num.round (value x))
  end.

End Float.

(** ** cirq: Pauli strings and their sums

    The part of cirq's data model that the notebook relies on.  A qubit is a
    [cirq.LineQubit], identified with its index. *)

Module Cirq.
Import Py Num.

(** [cirq.X], [cirq.Y], [cirq.Z] *)
Inductive Pauli : Type := X | Y | Z.

Global Instance Pauli_eq_dec : EqDecision Pauli.
Proof. solve_decision. Defined.

(** [cirq.PauliString]: a map from qubits to Paulis (the identity is
    never stored) and a coefficient. *)
Record PauliString : Type := mkPauliString {
  qubit_pauli_map : gmap nat Pauli;
  coefficient : complex
}.

(** [cirq.PauliString(dict(pairs), coeff)]; in a [dict] built from pairs
    a later pair replaces an earlier one with the same key. *)
Definition pauli_string (pairs : list (nat * Pauli)) (coeff : complex) : PauliString :=
  mkPauliString (fold_left (fun m p => <[p.1 := p.2]> m) pairs ∅) coeff.

(** [qubit in term] *)
Definition contains (term : PauliString) (qubit : nat) : bool :=
  bool_decide (is_Some (qubit_pauli_map term !! qubit)).

(** [term[qubit]] *)
Definition pauli_at (term : PauliString) (qubit : nat) : result Pauli :=
  match qubit_pauli_map term !! qubit with
  | Some p => Ok p
  | None => Raise KeyError
  end.

(** *** [cirq.value.LinearDict]

    A linear combination stored as a [dict] from vectors to coefficients;
    a coefficient equal to zero is never stored. *)
Section linear_dict.
Context {TVector : Type} `{EqDecision TVector}.

(** [self[vector] = coefficient] *)
Definition setitem (self : list (TVector * complex)) (vector : TVector)
    (coeff : complex) : list (TVector * complex) :=
  if nonzero coeff then dict_set self vector coeff else dict_del self vector.

(** [self.clean(atol=0)] *)
Definition clean (self : list (TVector * complex)) : list (TVector * complex) :=
  List.filter (fun vc => nonzero vc.2) self.

(** [LinearDict(terms)] *)
Definition linear_dict (terms : list (TVector * complex)) : list (TVector * complex) :=
  clean (fold_left
           (fun self vc => if nonzero vc.2 then setitem self vc.1 vc.2 else self)
           terms []).

(** [self += other] *)
Definition linear_dict_iadd (self other : list (TVector * complex))
    : list (TVector * complex) :=
  clean (fold_left
           (fun self vc =>
              let old_coefficient := default czero (dict_get self vc.1) in
              setitem self vc.1 (cadd old_coefficient vc.2))
           other self).
End linear_dict.

(** [cirq.PauliSum]: its [_linear_dict], keyed by the frozenset of the
    (qubit, Pauli) pairs of a term. *)
Definition PauliSum : Type := list (gmap nat Pauli * complex).

(** [PauliSum.from_pauli_strings(terms)] *)
Definition from_pauli_strings (terms : list PauliString) : PauliSum :=
  linear_dict
    (fold_left
       (fun termdict pstring =>
          let key := qubit_pauli_map pstring in
          dict_set termdict key
            (cadd (default czero (dict_get termdict key)) (coefficient pstring)))
       terms []).

(** [self += other] for a [PauliString] [other] *)
Definition iadd (self : PauliSum) (other : PauliString) : PauliSum :=
  linear_dict_iadd self (from_pauli_strings [other]).

(** [iter(self)]: one [PauliString] per stored term, in [dict] order. *)
Definition iter (self : PauliSum) : list PauliString :=
  List.map (fun vc => mkPauliString vc.1 vc.2) self.

(** [self.qubits]: the sorted tuple of the qubits of all terms. *)
Definition qubits (self : PauliSum) : list nat :=
  merge_sort Nat.le (elements (⋃ (List.map (fun vc => dom vc.1) self) : gset nat)).

End Cirq.

(** ** openfermion: qubit operators *)

Module OpenFermion.
Import Py Num Cirq.

(** A key of [QubitOperator.terms]: a tuple of (index, action) pairs. *)
Definition term : Type := list (nat * Pauli).

(** [QubitOperator]: its [terms] dictionary. *)
Definition QubitOperator : Type := list (term * complex).

(** The action letters ['X'], ['Y'], ['Z']. *)
Definition action_string (p : Pauli) : string :=
  match p with X => "X" | Y => "Y" | Z => "Z" end.

Definition action_of_string (s : string) : result Pauli :=
  if decide (s = "X") then Ok X
  else if decide (s = "Y") then Ok Y
  else if decide (s = "Z") then Ok Z
  else Raise ValueError.

(** The longest run of digits at the front of [cs], and what follows. *)
Fixpoint span_digits (cs : list ascii) : list ascii * list ascii :=
  match cs with
  | c :: cs' =>
      if isdigit c then let '(ds, rest) := span_digits cs' in (c :: ds, rest)
      else ([], cs)
  | [] => ([], [])
  end.

(** One factor of [SymbolicOperator._parse_string]: the trailing digits
    are the index, what precedes them is the action. *)
Definition parse_factor (factor : string) : result (nat * Pauli) :=
  let '(ds, rest) := span_digits (rev (list_ascii_of_string factor)) in
  index ← int (string_of_list_ascii (rev ds));
  action ← action_of_string (string_of_list_ascii (rev rest));
  Ok (index, action).

(** [SymbolicOperator._parse_string] *)
Definition parse_string (s : string) : result term :=
  fold_right
    (fun factor acc => f ← parse_factor factor; fs ← acc; Ok (f :: fs))
    (Ok []) (split s).

(** [sorted(term, key=lambda factor: factor[0])]: stable. *)
Fixpoint insert_by_index {A} (f : nat * A) (l : list (nat * A)) : list (nat * A) :=
  match l with
  | [] => [f]
  | g :: l' => if (f.1 <=? g.1)%nat then f :: l else g :: insert_by_index f l'
  end.

Definition sorted_by_index {A} (l : list (nat * A)) : list (nat * A) :=
  fold_right insert_by_index [] l.

(** The product table of the Paulis; [None] is the identity. *)
Definition pauli_product (a b : option Pauli) : complex * option Pauli :=
  let one := of_real (Q2Qc 1) in
  let i := Complex (Q2Qc 0) (Q2Qc 1) in
  let mi := Complex (Q2Qc 0) (- Q2Qc 1)%Qc in
  match a, b with
  | None, _ => (one, b)
  | _, None => (one, a)
  | Some X, Some X | Some Y, Some Y | Some Z, Some Z => (one, None)
  | Some X, Some Y => (i, Some Z)
  | Some X, Some Z => (mi, Some Y)
  | Some Y, Some X => (mi, Some Z)
  | Some Y, Some Z => (i, Some X)
  | Some Z, Some X => (i, Some Y)
  | Some Z, Some Y => (mi, Some X)
  end.

Definition keep_factor (f : nat * option Pauli) : term :=
  match f.2 with Some p => [(f.1, p)] | None => [] end.

(** The loop of [QubitOperator._simplify] over the sorted factors. *)
Fixpoint simplify_loop (coeff : complex) (new_term : term)
    (left_factor : nat * option Pauli) (rest : list (nat * option Pauli))
    : complex * term :=
  match rest with
  | [] => (coeff, new_term ++ keep_factor left_factor)
  | right_factor :: rest' =>
      if decide (left_factor.1 = right_factor.1) then
        let '(c, a) := pauli_product left_factor.2 right_factor.2 in
        simplify_loop (cmul coeff c) new_term (left_factor.1, a) rest'
      else
        simplify_loop coeff (new_term ++ keep_factor left_factor) right_factor rest'
  end.

(** [QubitOperator._simplify(term, coefficient)] *)
Definition simplify (t : term) (coeff : complex) : complex * term :=
  match sorted_by_index (List.map (fun f => (f.1, Some f.2)) t) with
  | [] => (coeff, [])
  | left_factor :: rest => simplify_loop coeff [] left_factor rest
  end.

(** [QubitOperator(term, coefficient)] for a tuple [term] *)
Definition of_sequence (t : term) (coeff : complex) : QubitOperator :=
  let '(c, t') := simplify t coeff in [(t', c)].

(** [QubitOperator(term, coefficient)] for a string [term] without
    brackets. *)
Definition of_string (s : string) (coeff : complex) : result QubitOperator :=
  t ← parse_string s; Ok (of_sequence t coeff).

(** [operator.get_operators()] *)
Definition get_operators (operator : QubitOperator) : list QubitOperator :=
  List.map (fun tc => of_sequence tc.1 tc.2) operator.

(** [count_qubits(operator)]: one more than the largest index acted on;
    the last factor of a term carries its largest index. *)
Definition count_qubits (operator : QubitOperator) : nat :=
  fold_left
    (fun num_qubits tc =>
       match last tc.1 with
       | Some f => if (num_qubits <? f.1 + 1)%nat then (f.1 + 1)%nat else num_qubits
       | None => num_qubits
       end)
    operator 0%nat.

(** [_qubit_operator_term_to_pauli_string(term, qubits)] *)
Definition qubit_operator_term_to_pauli_string (pauli : QubitOperator)
    (qubits : list nat) : result PauliString :=
  ind_ops_coeff ← next_iter pauli;
  pairs ← mapM (fun f => q ← getitem qubits f.1; Ok (q, f.2)) ind_ops_coeff.1;
  Ok (pauli_string pairs ind_ops_coeff.2).

(** [transforms.qubit_operator_to_pauli_sum(operator)] with the default
    qubits [[LineQubit(i) for i in range(count_qubits(operator))]]. *)
Definition qubit_operator_to_pauli_sum (operator : QubitOperator) : result PauliSum :=
  let qubits := seq 0 (count_qubits operator) in
  foldl
    (fun acc pauli =>
       pauli_sum ← acc;
       ps ← qubit_operator_term_to_pauli_string pauli qubits;
       Ok (iadd pauli_sum ps))
    (Ok []) (get_operators operator).

End OpenFermion.

(** ** qiskit: sparse Pauli operators *)

Module Qiskit.
Import Py.

(** [SparsePauliOp]: the Pauli labels and the coefficient paired with
    each.  qiskit stores the coefficients as complex numbers; the notebook
    only ever passes real ones. *)
Record SparsePauliOp : Type := mkSparsePauliOp {
  paulis : list string;
  coeffs : list Qc
}.

(** [SparsePauliOp(data, coeffs)] for a list of labels: the list of
    labels goes through [PauliList], which refuses an empty list
    ("Input Pauli list is empty.").  The labels the notebook builds are
    words over I, X, Y and Z of one length, which may be zero, and come with
    as many coefficients; no other check of the constructor applies to
    them. *)
Definition sparse_pauli_op (data : list string) (cs : list Qc) : result SparsePauliOp :=
  match data with
  | [] => Raise QiskitError
  | _ => Ok (mkSparsePauliOp data cs)
  end.

End Qiskit.

(** ** The notebook's own code *)

Module Notebook.
Import Py Num Cirq OpenFermion Qiskit.

(** A [for] loop whose body can raise: the frame reached so far is kept
    together with the exception that stopped the loop, if any. *)
Fixpoint for_each {S A : Type} (body : S -> A -> S * option exn)
    (xs : list A) (s : S) : S * option exn :=
  match xs with
  | [] => (s, None)
  | x :: xs' =>
      match body s x with
      | (s', None) => for_each body xs' s'
      | stopped => stopped
      end
  end.

(** *** Cell 13: [preprocess_hamiltonian] *)
Module Preprocess.

(** The objects the call can reach: the caller's operator and the
    sum under construction. *)
Record frame : Type := mkFrame {
  hamiltonian : QubitOperator;
  new : PauliSum
}.

(** The inner loop: [add_term] stays [True] unless some predicate of
    [drop_term_if] holds of the term. *)
Fixpoint add_term (drop_term_if : list (term -> bool)) (t : term) : bool :=
  match drop_term_if with
  | [] => true
  | drop_term :: rest => if drop_term t then false else add_term rest t
  end.

(** [" ".join(pauli + str(index) for index, pauli in term)] *)
Definition key (t : term) : string :=
  join " " (List.map (fun f => action_string f.2 +:+ str f.1) t).

(** The Pauli string added for a kept term:
    [next(iter(qubit_operator_to_pauli_sum(QubitOperator(key, terms.get(term)))))].
    [terms.get] returns [None] for a missing key, which the
    [QubitOperator] constructor refuses as a coefficient. *)
Definition converted (h : QubitOperator) (t : term) : result PauliString :=
  coeff ← match dict_get h t with
          | Some c => Ok c
          | None => Raise ValueError
          end;
  op ← of_string (key t) coeff;
  pauli_sum ← qubit_operator_to_pauli_sum op;
  next_iter (iter pauli_sum).

(** The body of the loop over [hamiltonian.terms]. *)
Definition body (drop_term_if : list (term -> bool)) (fr : frame) (t : term)
    : frame * option exn :=
  if add_term drop_term_if t then
    match converted (hamiltonian fr) t with
    | Ok ps => (mkFrame (hamiltonian fr) (iadd (new fr) ps), None)
    | Raise e => (fr, Some e)
    end
  else (fr, None).

(** The whole call, as a run from the frame at entry. *)
Definition run (h : QubitOperator) (drop_term_if : option (list (term -> bool)))
    : frame * option exn :=
  let drop_term_if := default [] drop_term_if in
  for_each (body drop_term_if) (List.map fst h) (mkFrame h []).

End Preprocess.

Definition preprocess_hamiltonian (hamiltonian : QubitOperator)
    (drop_term_if : option (list (term -> bool))) : result PauliSum :=
  match Preprocess.run hamiltonian drop_term_if with
  | (fr, None) => Ok (Preprocess.new fr)
  | (_, Some e) => Raise e
  end.

(** Cell 14: [lambda term: term == ()] *)
Definition is_identity (t : term) : bool := bool_decide (t = []).

(** *** Cell 19: [cirq_pauli_sum_to_qiskit_pauli_op] *)
Module Convert.

Record frame : Type := mkFrame {
  pauli_sum : PauliSum;
  terms : list string;
  coeffs : list Qc
}.

(** [{cirq.X: "X", cirq.Y: "Y", cirq.Z: "Z"}] *)
Definition cirq_pauli_to_str (p : Pauli) : string :=
  match p with X => "X" | Y => "Y" | Z => "Z" end.

(** [atol=1e-7] *)
Definition atol : Qc := Q2Qc (1 # 10000000).

(** One round of the loop over [qubits]. *)
Definition extend (term : PauliString) (acc : result string) (qubit : nat)
    : result string :=
  s ← acc;
  if negb (contains term qubit) then Ok (s +:+ "I")
  else p ← pauli_at term qubit; Ok (s +:+ cirq_pauli_to_str p).

(** The string built for one term. *)
Definition label (qubits : list nat) (term : PauliString) : result string :=
  foldl (extend term) (Ok "") qubits.

(** The body of the loop over the terms of [pauli_sum]. *)
Definition body (qubits : list nat) (fr : frame) (term : PauliString)
    : frame * option exn :=
  match label qubits term with
  | Raise e => (fr, Some e)
  | Ok s =>
      let fr := mkFrame (pauli_sum fr) (terms fr ++ [s]) (coeffs fr) in
      if isclose (imag (coefficient term)) (Q2Qc 0) atol then
        (mkFrame (pauli_sum fr) (terms fr)
                 (coeffs fr ++ [real (coefficient term)]), None)
      else (fr, Some AssertionError)
  end.

Definition run (ps : PauliSum) : frame * option exn :=
  let qubits := Cirq.qubits ps in
  for_each (body qubits) (iter ps) (mkFrame ps [] []).

End Convert.

Definition cirq_pauli_sum_to_qiskit_pauli_op (pauli_sum : PauliSum)
    : result SparsePauliOp :=
  match Convert.run pauli_sum with
  | (fr, None) => sparse_pauli_op (Convert.terms fr) (Convert.coeffs fr)
  | (_, Some e) => Raise e
  end.

(** *** The cell "Number of Trotter steps for chemical accuracy"

    [H] is what the module [convert], which is not part of the notebook,
    returned; [H.coeffs] is an array of complex doubles, each a pair of
    doubles here.  [np.abs] takes the absolute value of each entry and
    [np.sum] adds the entries up, in an order and a grouping that depend on
    the length of the array and on numpy's version: numpy's two routines
    are parameters. *)
Section trotter_steps.
Variable np_abs : Float.float * Float.float -> Float.float.
Variable np_sum : list Float.float -> Float.float.

(** [epsilon: float = 0.001] *)
Definition epsilon : Float.float := Float.literal 1 1000.

(** [error = np.sum(np.abs(H.coeffs))] *)
Definition error (H_coeffs : list (Float.float * Float.float)) : Float.float :=
  np_sum (List.map np_abs H_coeffs).

(** [nsteps = round(error / epsilon)] *)
Definition nsteps (H_coeffs : list (Float.float * Float.float)) : result BinNums.Z :=
  Float.round (Float.div (error H_coeffs) epsilon).
End trotter_steps.

(** *** The cell "Number of shots"

    [kcommute.get_si_sets], [convert.to_groups_of] and
    [kcommute.compute_shots] belong to modules that are not part of the
    notebook; they are parameters here, and [compute_shots] is taken to
    return a float.  The module names [kcommute] and
    [convert] are looked up in [names], the names bound in the kernel
    when the cell runs; the variables [hamiltonian], [evec] and [nqubits]
    are given by their values. *)
Section shots.
Context {Groups GroupsOf Vector : Type}.
Variable get_si_sets : PauliSum -> nat -> Groups.
Variable to_groups_of : Groups -> GroupsOf.
Variable compute_shots : GroupsOf -> Vector -> BinNums.Z -> Float.float.
Variable names : gset string.
Variable hamiltonian : PauliSum.
Variable evec : Vector.
Variable nqubits : nat.

(** [epsilons = [0.1, 0.01, 0.001]] *)
Definition epsilons : list Float.float :=
  [Float.literal 1 10; Float.literal 1 100; Float.literal 1 1000].

(** [kvals = [1, 2, nqubits // 2, nqubits]] *)
Definition kvals : list nat := [1; 2; nqubits / 2; nqubits]%nat.

(** The value bound to [base_shots] in the round for [k]. *)
Definition base_shots (k : nat) : Float.float :=
  let groups := get_si_sets hamiltonian k in
  let groups_of := to_groups_of groups in
  compute_shots groups_of evec 1%Z.

(** The body of [for k in kvals]. *)
Definition shots_body (all_shots : list (list Float.float)) (k : nat)
    : list (list Float.float) * option exn :=
  if decide ("kcommute" ∈ names) then
    if decide ("convert" ∈ names) then
      let shots :=
        List.map (fun epsilon => Float.div (base_shots k) (Float.square epsilon))
          epsilons in
      (all_shots ++ [shots], None)
    else (all_shots, Some (NameError "convert"))
  else (all_shots, Some (NameError "kcommute")).

(** The list [all_shots] when the cell stops, and the exception that
    stopped it, if any. *)
Definition shots_cell : list (list Float.float) * option exn :=
  for_each shots_body kvals [].
End shots.

(** *** The cells, as the names they read and bind and the calls they make

    Each code cell is the sequence of what its statements do to the
    kernel, in evaluation order: look a global name up, call something
    (named as the call is written), bind a name.  A cell that holds only
    comments is empty.  The bodies of the two [def]s and of the [lambda]
    run inside the calls that invoke them and are not expanded here, so
    that the names they look up are not read in this model, and method
    calls on intermediate values ([dict.items], [str.join]) are left
    out. *)
Module Cells.

Inductive action : Type :=
| Import (name : string)   (** [import m], [import m as name], [from m import name] *)
| Def (name : string)      (** [def name(...)] *)
| Lookup (name : string)   (** the value of a name *)
| Assign (name : string)   (** an assignment to a name *)
| Call (callee : string).  (** a call *)

(** A statement: a single action, or a [for] loop with the number of
    rounds it makes and the actions of one round. *)
Inductive stmt : Type :=
| Do (a : action)
| For (rounds : nat) (body : list action).

Definition cell : Type := list stmt.

(** A cell without loops. *)
Definition straight (body : list action) : cell := List.map Do body.

(** A kernel: the global names it holds and the calls made so far. *)
Record kernel : Type := mkKernel {
  names : gset string;
  trace : list string
}.

(** The builtins that the notebook's code uses.  The first eight are
    looked up by the cells; [enumerate], [str], [next] and [iter] are
    looked up by the body of [preprocess_hamiltonian] when it is called. *)
Definition builtins : gset string :=
  {["len"; "print"; "range"; "round"; "open"; "zip"; "int"; "float";
    "enumerate"; "str"; "next"; "iter"]}.

(** A kernel that has run nothing. *)
Definition fresh : kernel := mkKernel builtins [].

Definition exec (k : kernel) (a : action) : kernel * option exn :=
  match a with
  | Import x | Def x | Assign x => (mkKernel ({[x]} ∪ names k) (trace k), None)
  | Lookup x =>
      if decide (x ∈ names k) then (k, None) else (k, Some (NameError x))
  | Call f => (mkKernel (names k) (trace k ++ [f]), None)
  end.

Definition exec_stmt (k : kernel) (s : stmt) : kernel * option exn :=
  match s with
  | Do a => exec k a
  | For rounds body => for_each (fun k _ => for_each exec body k) (seq 0 rounds) k
  end.

(** "Run All": the cells in order, stopping at the first exception. *)
Definition run_all (cells : list cell) (k : kernel) : kernel * option exn :=
  for_each (fun k c => for_each exec_stmt c k) cells k.

Definition cell_imports : cell :=
  straight [ Import "pickle"; Import "plt"; Import "np"; Import "scipy"; Import "of";
    Import "run_pyscf"; Import "geometry_from_pubchem"; Import "MolecularData";
    Import "openfermion_helper"; Import "qiskit"; Import "qiskit";
    Import "qiskit_ibm_runtime"; Import "PauliEvolutionGate";
    Import "LieTrotter"; Import "SuzukiTrotter" ].

Definition cell_molecule : cell :=
  straight [ Assign "geometry"; Assign "basis"; Assign "multiplicity"; Assign "charge";
    Lookup "MolecularData"; Lookup "geometry"; Lookup "basis"; Lookup "multiplicity";
    Lookup "charge"; Call "MolecularData"; Assign "molecule";
    Lookup "run_pyscf"; Lookup "molecule"; Call "run_pyscf"; Assign "mol" ].

Definition cell_save : cell := straight [ Lookup "mol"; Call "mol.save" ].

Definition cell_load : cell :=
  straight [ Lookup "MolecularData"; Lookup "molecule"; Call "MolecularData";
    Assign "hamiltonian" ].

Definition cell_molecular_hamiltonian : cell :=
  straight [ Lookup "hamiltonian"; Call "hamiltonian.get_molecular_hamiltonian";
    Assign "hamiltonian" ].

Definition cell_fermion_operator : cell :=
  straight [ Lookup "of"; Lookup "hamiltonian"; Call "of.get_fermion_operator";
    Assign "hamiltonian" ].

Definition cell_len_terms : cell :=
  straight [ Lookup "len"; Lookup "hamiltonian"; Call "len" ].

Definition cell_compress : cell :=
  straight [ Assign "threshold"; Lookup "hamiltonian"; Lookup "threshold";
    Call "hamiltonian.compress" ].

Definition cell_jordan_wigner : cell :=
  straight [ Lookup "of"; Lookup "hamiltonian"; Call "of.jordan_wigner";
    Assign "hamiltonian_openfermion" ].

Definition cell_nterms : cell :=
  straight [ Lookup "len"; Lookup "hamiltonian_openfermion"; Call "len"; Assign "nterms";
    Lookup "nterms" ].

Definition cell_nqubits : cell :=
  straight [ Lookup "openfermion_helper"; Lookup "hamiltonian_openfermion";
    Call "openfermion_helper.get_num_qubits"; Assign "nqubits";
    Lookup "print"; Lookup "nqubits"; Lookup "nterms"; Call "print" ].

Definition cell_def_preprocess : cell :=
  straight [ Import "cirq"; Lookup "of"; Lookup "cirq"; Def "preprocess_hamiltonian" ].

Definition cell_preprocess : cell :=
  straight [ Lookup "preprocess_hamiltonian"; Lookup "hamiltonian_openfermion";
    Call "preprocess_hamiltonian"; Assign "hamiltonian" ].

Definition cell_statistics : cell :=
  straight [ Lookup "len"; Lookup "hamiltonian"; Call "len"; Assign "nterms";
    Lookup "len"; Lookup "hamiltonian"; Call "len"; Assign "nqubits";
    Lookup "print"; Lookup "nqubits"; Lookup "nterms"; Call "print" ].

Definition cell_convert : cell :=
  straight [ Import "convert"; Import "SparsePauliOp"; Lookup "cirq"; Lookup "SparsePauliOp";
    Def "cirq_pauli_sum_to_qiskit_pauli_op";
    Lookup "convert"; Lookup "hamiltonian";
    Call "convert.cirq_pauli_sum_to_qiskit_pauli_op"; Assign "H" ].

Definition cell_trotter_step : cell :=
  straight [ Assign "order"; Lookup "int"; Assign "cx_structure";
    Lookup "PauliEvolutionGate"; Lookup "H"; Lookup "order"; Lookup "LieTrotter";
    Lookup "cx_structure"; Call "LieTrotter"; Call "PauliEvolutionGate";
    Assign "trotter_step" ].

Definition cell_circuit : cell :=
  straight [ Lookup "qiskit"; Lookup "H"; Call "qiskit.QuantumCircuit"; Assign "circuit";
    Lookup "circuit"; Lookup "trotter_step"; Lookup "range"; Lookup "H"; Call "range";
    Call "circuit.append" ].

Definition cell_decompose : cell :=
  straight [ Lookup "circuit"; Call "circuit.decompose"; Assign "circuit";
    Lookup "print"; Lookup "circuit"; Call "circuit.depth";
    Lookup "circuit"; Call "circuit.count_ops"; Call "print" ].

Definition cell_compile : cell :=
  straight [ Lookup "qiskit"; Lookup "circuit"; Call "qiskit.transpile"; Assign "compiled";
    Lookup "print"; Lookup "compiled"; Call "compiled.depth";
    Lookup "compiled"; Call "compiled.count_ops"; Call "print" ].

Definition cell_compile_to_device : cell :=
  straight [ Lookup "qiskit_ibm_runtime"; Call "qiskit_ibm_runtime.fake_provider.FakeKyiv";
    Assign "computer";
    Lookup "qiskit"; Lookup "compiled"; Lookup "computer"; Call "qiskit.transpile";
    Assign "compiled_kyiv";
    Lookup "print"; Lookup "compiled_kyiv"; Call "compiled_kyiv.depth";
    Lookup "compiled_kyiv"; Call "compiled_kyiv.count_ops"; Call "print" ].

Definition cell_tket : cell :=
  straight [ Import "IBMQBackend"; Import "tk_to_qiskit"; Import "qiskit_to_tk";
    Lookup "IBMQBackend"; Call "IBMQBackend"; Assign "ibmbackend";
    Lookup "qiskit_to_tk"; Lookup "circuit"; Call "qiskit_to_tk"; Assign "tket_circuit";
    Lookup "ibmbackend"; Lookup "tket_circuit";
    Call "ibmbackend.get_compiled_circuit"; Assign "tket_compiled";
    Lookup "tk_to_qiskit"; Lookup "tket_compiled"; Call "tk_to_qiskit";
    Assign "qisk_converted";
    Lookup "print"; Lookup "qisk_converted"; Call "qisk_converted.depth";
    Lookup "qisk_converted"; Call "qisk_converted.count_ops"; Call "print" ].

Definition cell_nsteps : cell :=
  straight [ Lookup "np"; Lookup "np"; Lookup "H"; Call "np.abs"; Call "np.sum"; Assign "error";
    Assign "epsilon"; Lookup "float";
    Lookup "round"; Lookup "error"; Lookup "epsilon"; Call "round"; Assign "nsteps";
    Lookup "nsteps" ].

Definition cell_vqe : cell :=
  straight [ Lookup "qiskit"; Lookup "pickle"; Lookup "open"; Call "open"; Call "pickle.load";
    Call "qiskit.qasm3.loads"; Assign "circuit_vqe";
    Lookup "print"; Lookup "circuit_vqe"; Call "circuit_vqe.depth";
    Lookup "len"; Lookup "circuit_vqe"; Call "len";
    Lookup "circuit_vqe"; Call "circuit_vqe.num_nonlocal_gates";
    Lookup "circuit_vqe"; Call "circuit_vqe.count_ops"; Call "print" ].

Definition cell_eigsh : cell :=
  straight [ Lookup "scipy"; Lookup "of"; Lookup "hamiltonian_openfermion";
    Call "of.linalg.get_sparse_operator"; Call "scipy.sparse.linalg.eigsh";
    Assign "eval"; Assign "evec";
    Lookup "evec"; Call "evec.flatten"; Assign "evec" ].

(** One round of [for k in kvals]. *)
Definition shots_round : list action :=
  [ Assign "k";
    Lookup "kcommute"; Lookup "hamiltonian"; Lookup "k"; Call "kcommute.get_si_sets";
    Assign "groups";
    Lookup "convert"; Lookup "groups"; Call "convert.to_groups_of"; Assign "groups_of";
    Lookup "kcommute"; Lookup "groups_of"; Lookup "evec"; Call "kcommute.compute_shots";
    Assign "base_shots";
    Lookup "epsilons"; Lookup "base_shots"; Lookup "base_shots"; Lookup "base_shots";
    Assign "shots";
    Lookup "all_shots"; Lookup "shots"; Call "all_shots.append";
    Lookup "print"; Lookup "all_shots"; Call "print" ].

(** [kvals] has four entries, so the loop makes four rounds. *)
Definition cell_shots : cell :=
  straight [ Assign "epsilons"; Lookup "nqubits"; Lookup "nqubits"; Assign "kvals";
    Assign "all_shots"; Lookup "kvals" ]
  ++ [ For 4 shots_round ].

(** [cell_shots] leaves [all_shots] with four rows; the loop over
    [zip(kvals, all_shots)] makes four rounds. *)
Definition plot_round : list action :=
  [ Assign "kval"; Assign "shots";
    Lookup "plt"; Lookup "epsilons"; Lookup "shots"; Lookup "kval"; Call "plt.loglog" ].

Definition cell_plot : cell :=
  straight [ Lookup "plt"; Call "plt.rcParams.update";
    Lookup "zip"; Lookup "kvals"; Lookup "all_shots"; Call "zip" ]
  ++ [ For 4 plot_round ]
  ++ straight [ Lookup "plt"; Call "plt.legend"; Lookup "plt"; Call "plt.xlabel";
    Lookup "plt"; Call "plt.ylabel";
    Lookup "plt"; Lookup "nqubits"; Lookup "nterms"; Call "plt.title" ].

(** The code cells of the notebook, top to bottom. *)
Definition notebook : list cell :=
  [ cell_imports; cell_molecule; cell_save; cell_load;
    cell_molecular_hamiltonian; cell_fermion_operator; cell_len_terms;
    cell_compress; cell_len_terms; cell_jordan_wigner; cell_nterms;
    cell_nqubits; cell_def_preprocess; cell_preprocess; [];
    cell_statistics; []; []; cell_convert; cell_trotter_step; cell_circuit;
    cell_decompose; cell_compile; cell_compile_to_device; cell_tket;
    cell_nsteps; cell_vqe; cell_eigsh; cell_shots; cell_plot ].

End Cells.

End Notebook.

(** ** Vocabulary of the statements *)

Import Py Num Cirq OpenFermion Qiskit Notebook.

(** A term as openfermion stores it: its factors by strictly increasing
    index, so at most one Pauli on each qubit. *)
Fixpoint canonical (t : term) : bool :=
  match t with
  | f :: (g :: _) as t' => (f.1 <? g.1)%nat && canonical t'
  | _ => true
  end.

(** The invariant of [QubitOperator.terms]: canonical keys, each once. *)
Definition well_formed (h : QubitOperator) : bool :=
  forallb canonical (List.map fst h) && bool_decide (NoDup (List.map fst h)).

(** The key that cirq gives a term: the frozenset of its (qubit, Pauli)
    pairs. *)
Definition term_map (t : term) : gmap nat Pauli := list_to_map t.

(** No predicate of [drop_term_if] holds of the term. *)
Definition kept (drop_term_if : option (list (term -> bool))) (t : term) : bool :=
  forallb (fun drop_term => negb (drop_term t)) (default [] drop_term_if).

(** The terms of an operator that are kept, in order. *)
Definition kept_terms (drop_term_if : option (list (term -> bool)))
    (h : QubitOperator) : QubitOperator :=
  List.filter (fun tc => kept drop_term_if tc.1) h.

(** Every kept term has a coefficient other than zero. *)
Definition kept_nonzero (drop_term_if : option (list (term -> bool)))
    (h : QubitOperator) : bool :=
  forallb (fun tc => nonzero tc.2) (kept_terms drop_term_if h).

(** The sum with one term per term of the operator: the same Paulis on
    the same qubits, the same coefficient. *)
Definition pauli_sum_of (h : QubitOperator) : PauliSum :=
  List.map (fun tc => (term_map tc.1, tc.2)) h.

(** The character that stands for what a term does on a qubit. *)
Definition letter (o : option Pauli) : ascii :=
  match o with
  | None => "I"
  | Some X => "X"
  | Some Y => "Y"
  | Some Z => "Z"
  end.

(** The label of a term over the qubits of the sum. *)
Definition label_of (qubits : list nat) (term : PauliString) : string :=
  string_of_list_ascii (List.map (fun q => letter (qubit_pauli_map term !! q)) qubits).

(** The imaginary part of the coefficient passes the assertion. *)
Definition close (term : PauliString) : bool :=
  isclose (imag (coefficient term)) (Q2Qc 0) Convert.atol.

Definition half : Qc := Q2Qc (1 # 2).

(** [n] is the integer nearest to [x], and the even one when two integers
    are equally near. *)
Definition nearest_even (x : Qc) (n : BinNums.Z) : Prop :=
  (Qcabs (x - Q2Qc (inject_Z n)) <= half)%Qc
  ∧ (Qcabs (x - Q2Qc (inject_Z n)) = half -> Z.even n = true).

(** The number that a finite double stands for: the mantissa [m] times
    two to the exponent [e], with the sign [s]. *)
Definition finite_value (s : bool) (m : positive) (e : BinNums.Z) : Qc :=
  Q2Qc ((if s then - inject_Z (Zpos m) else inject_Z (Zpos m)) * (2 # 1) ^ e)%Q.

(** The doubles nearest to 0.1, 0.01 and 0.001, which Python reads the
    literals [0.1], [0.01] and [0.001] as:
    [0x1.999999999999ap-4], [0x1.47ae147ae147bp-7] and
    [0x1.0624dd2f1a9fcp-10]. *)
Definition double_0_1 : spec_float := S754_finite false 7205759403792794 (-56).
Definition double_0_01 : spec_float := S754_finite false 5764607523034235 (-59).
Definition double_0_001 : spec_float := S754_finite false 4611686018427388 (-62).

Definition accuracies : list spec_float := [double_0_1; double_0_01; double_0_001].

(** The row of [all_shots] for a base count: its quotient by the square of
    each accuracy, square and quotient rounded to a double as IEEE 754 has
    it. *)
Definition expected_row (base : spec_float) : list spec_float :=
  List.map (fun accuracy => SFdiv 53 1024 base (SFmul 53 1024 accuracy accuracy))
    accuracies.

(** The order of the factors of a canonical term. *)
Definition by_index (f g : nat * Pauli) : Prop := (f.1 < g.1)%nat.

Definition no_space (w : string) : Prop :=
  Forall (fun c => isspace c = false) (list_ascii_of_string w).

Definition all_nonzero (s : PauliSum) : Prop :=
  Forall (fun vc => nonzero vc.2 = true) s.

(** *** The steps of a run *)

(** The calls that carry out the steps of the analysis. *)
Definition is_step (callee : string) : bool :=
  bool_decide (callee ∈ ["MolecularData"; "run_pyscf"; "of.jordan_wigner"; "LieTrotter";
                          "PauliEvolutionGate"; "qiskit.transpile";
                          "kcommute.compute_shots"]).

Definition steps (trace : list string) : list string := List.filter is_step trace.

(** A kernel in which [kcommute] was imported by hand. *)
Definition with_kcommute : Cells.kernel :=
  Cells.mkKernel ({["kcommute"]} ∪ Cells.builtins) [].

(** *** Sample data *)

Definition q (n : BinNums.Z) (d : positive) : Qc := Q2Qc (n # d).

(** Stand-ins for numpy's routines on an array with one entry [x + 0j],
    [x] other than zero: the absolute value of the entry is that of [x],
    and the sum of one number is the number. *)
Definition abs_of_real (z : spec_float * spec_float) : spec_float := SFabs z.1.
Definition sum_of_one (xs : list spec_float) : spec_float :=
  default (S754_zero false) (head xs).

(** [0.0025 + 0j], [0.0005 + 0j] and [1e306 + 0j] *)
Definition c_0_0025 : spec_float * spec_float :=
  (S754_finite false 5764607523034235 (-61), S754_zero false).
Definition c_0_0005 : spec_float * spec_float :=
  (S754_finite false 4611686018427388 (-63), S754_zero false).
Definition c_1e306 : spec_float * spec_float :=
  (S754_finite false 6413338752028713 964, S754_zero false).

(** [100.0] *)
Definition double_100 : spec_float := S754_finite false 7036874417766400 (-46).

(** [1.5 [] + 0.5 [X0 Z12] + (-0.25+1e-08j) [Y1]] *)
Definition h_sample : QubitOperator :=
  [ ([], Complex (q 3 2) (q 0 1));
    ([(0, X); (12, Z)]%nat, Complex (q 1 2) (q 0 1));
    ([(1, Y)]%nat, Complex (q (-1) 4) (q 1 100000000)) ].

(** [0.0 [X0]] *)
Definition h_zero : QubitOperator := [ ([(0, X)]%nat, czero) ].

(** [1.5 [] + 0.0 [Z1]] *)
Definition h_identity_zero : QubitOperator :=
  [ ([], Complex (q 3 2) (q 0 1)); ([(1, Z)]%nat, czero) ].

(** [0.5 * X(0) * Z(12) + (-0.25+1e-08j) * Y(1)] *)
Definition sum_sample : PauliSum :=
  [ (term_map [(0, X); (12, Z)]%nat, Complex (q 1 2) (q 0 1));
    (term_map [(1, Y)]%nat, Complex (q (-1) 4) (q 1 100000000)) ].

(** [0.5 * X(0) + 0.001j * Z(1)] *)
Definition sum_complex : PauliSum :=
  [ (term_map [(0, X)]%nat, Complex (q 1 2) (q 0 1));
    (term_map [(1, Z)]%nat, Complex (q 0 1) (q 1 1000)) ].

(** ** More of the notebook *)

(** *** Cell 16: the statistics of the preprocessed Hamiltonian *)

Module Statistics.

(** [nterms = len(hamiltonian)] *)
Definition nterms (hamiltonian : PauliSum) : nat := length hamiltonian.

(** [nqubits = len(hamiltonian.qubits)] *)
Definition nqubits (hamiltonian : PauliSum) : nat := length (qubits hamiltonian).

End Statistics.

(** *** The two functions of the notebook in a row

    [cirq_pauli_sum_to_qiskit_pauli_op(preprocess_hamiltonian(h, drop_term_if))],
    with the function that the notebook defines.  The notebook itself
    does not make this call: it builds [H] with the function of the same
    name of the module [convert], which is not part of it. *)
Definition converted_hamiltonian (h : QubitOperator)
    (drop_term_if : option (list (term -> bool))) : result SparsePauliOp :=
  s ← preprocess_hamiltonian h drop_term_if; cirq_pauli_sum_to_qiskit_pauli_op s.

(** *** More sample data *)

(** A predicate that drops every term. *)
Definition drop_all (t : term) : bool := true.

(** A predicate that drops the terms with a single factor. *)
Definition single_factor (t : term) : bool := bool_decide (length t = 1%nat).

(** The operator that the conversion gives for [sum_sample]. *)
Definition op_sample : SparsePauliOp :=
  mkSparsePauliOp ["XIZ"; "IYI"] [q 1 2; q (-1) 4].

(** The letters of a Pauli label. *)
Definition pauli_letters : list ascii := ["I"; "X"; "Y"; "Z"]%char.

(** * Facts *)

(** ** Strings *)

Lemma append_cons (a : ascii) (s r : string) : String a s +:+ r = String a (s +:+ r).
Proof. reflexivity. Qed.

Lemma append_snoc (s : string) (c : ascii) (r : string) :
  (s +:+ String c "") +:+ r = s +:+ String c r.
Proof. induction s as [|a s IH]; [done|]. by rewrite !append_cons, IH. Qed.

Lemma append_empty_r (s : string) : s +:+ "" = s.
Proof. induction s as [|a s IH]; [done|]. by rewrite append_cons, IH. Qed.

Lemma list_ascii_of_string_app (a b : string) :
  list_ascii_of_string (a +:+ b) = list_ascii_of_string a ++ list_ascii_of_string b.
Proof.
  induction a as [|c a IH]; [done|].
  rewrite append_cons. simpl. by rewrite IH.
Qed.

Lemma length_string_of_list_ascii (cs : list ascii) :
  String.length (string_of_list_ascii cs) = length cs.
Proof. induction cs as [|c cs IH]; simpl; [done | by rewrite IH]. Qed.

Lemma get_string_of_list_ascii (cs : list ascii) (j : nat) :
  String.get j (string_of_list_ascii cs) = cs !! j.
Proof. revert j. induction cs as [|c cs IH]; intros [|j]; simpl; auto. Qed.

Lemma rev_chars_nonempty (w : string) : w ≠ "" -> rev (list_ascii_of_string w) ≠ [].
Proof.
  intros Hne E. apply (f_equal (@rev _)) in E. rewrite rev_involutive in E.
  destruct w; [done | discriminate].
Qed.

(** *** [split] undoes [join] *)

Lemma split_aux_word (w cur rest : list ascii) :
  Forall (fun c => isspace c = false) w ->
  split_aux cur (w ++ rest) = split_aux (rev w ++ cur) rest.
Proof.
  intros Hw. revert cur. induction Hw as [|c w Hc _ IH]; intros cur; [done|].
  simpl. rewrite Hc, IH. by rewrite <- app_assoc.
Qed.

Lemma split_aux_space (cur rest : list ascii) :
  cur ≠ [] ->
  split_aux cur (" "%char :: rest) = string_of_list_ascii (rev cur) :: split_aux [] rest.
Proof. intros H. destruct cur; [done|]. reflexivity. Qed.

Lemma split_aux_last (w : string) :
  w ≠ "" -> no_space w -> split_aux [] (list_ascii_of_string w) = [w].
Proof.
  intros Hne Hw.
  rewrite <- (app_nil_r (list_ascii_of_string w)), split_aux_word by done.
  rewrite app_nil_r. simpl.
  pose proof (rev_chars_nonempty w Hne) as Hrev.
  destruct (rev (list_ascii_of_string w)) as [|c cs] eqn:E; [done|].
  by rewrite <- E, rev_involutive, string_of_list_ascii_of_string.
Qed.

Lemma split_join (ws : list string) :
  Forall (fun w => w ≠ "" ∧ no_space w) ws -> split (join " " ws) = ws.
Proof.
  unfold split. induction 1 as [|w ws [Hne Hw] Hws IH]; [done|].
  destruct ws as [|w' ws].
  - simpl. by apply split_aux_last.
  - change (join " " (w :: w' :: ws)) with (w +:+ " " +:+ join " " (w' :: ws)).
    rewrite !list_ascii_of_string_app, split_aux_word by done.
    rewrite app_nil_r.
    change (list_ascii_of_string " ") with [" "%char]. simpl app.
    rewrite split_aux_space by by apply rev_chars_nonempty.
    rewrite rev_involutive, string_of_list_ascii_of_string. f_equal. exact IH.
Qed.

(** *** [int] undoes [str] *)

Lemma digits_of_uint (d : uint) :
  Forall (fun c => isdigit c = true) (list_ascii_of_string (NilEmpty.string_of_uint d)).
Proof. induction d; simpl; constructor; done. Qed.

Lemma str_digits (n : nat) :
  Forall (fun c => isdigit c = true) (list_ascii_of_string (str n)).
Proof. apply digits_of_uint. Qed.

Lemma to_uint_nonnil (n : nat) : Nat.to_uint n ≠ Nil.
Proof.
  rewrite <- (Unsigned.of_to n) at 1. rewrite Unsigned.to_of.
  apply unorm_nonnil.
Qed.

Lemma str_nonempty (n : nat) : str n ≠ "".
Proof.
  unfold str. pose proof (to_uint_nonnil n) as H.
  destruct (Nat.to_uint n); simpl; congruence.
Qed.

Lemma int_str (n : nat) : int (str n) = Ok n.
Proof.
  unfold int. pose proof (str_nonempty n).
  destruct (str n) eqn:E; [done|]. rewrite <- E. unfold str.
  by rewrite NilEmpty.usu, Unsigned.of_to.
Qed.

Lemma digit_not_space (c : ascii) : isdigit c = true -> isspace c = false.
Proof.
  unfold isdigit, isspace. set (m := nat_of_ascii c).
  intros [H1 H2]%andb_true_iff. apply Nat.leb_le in H1, H2.
  destruct (Nat.eqb_spec m 32), (Nat.leb_spec 9 m), (Nat.leb_spec m 13),
    (Nat.leb_spec 28 m), (Nat.leb_spec m 31); simpl; try done; lia.
Qed.

(** ** Parsing the key of a term *)

Lemma span_digits_app (ds rest : list ascii) :
  Forall (fun c => isdigit c = true) ds ->
  match rest with [] => True | c :: _ => isdigit c = false end ->
  span_digits (ds ++ rest) = (ds, rest).
Proof.
  intros Hds Hrest. induction Hds as [|c ds Hc _ IH]; simpl.
  - destruct rest as [|c rest]; [done|]. simpl. by rewrite Hrest.
  - by rewrite Hc, IH.
Qed.

Lemma parse_factor_key (n : nat) (p : Pauli) :
  parse_factor (action_string p +:+ str n) = Ok (n, p).
Proof.
  unfold parse_factor.
  rewrite list_ascii_of_string_app, rev_app_distr.
  rewrite (span_digits_app (rev (list_ascii_of_string (str n)))
             (rev (list_ascii_of_string (action_string p)))).
  - cbv beta iota.
    rewrite !rev_involutive, !string_of_list_ascii_of_string, int_str.
    by destruct p.
  - apply Forall_rev, str_digits.
  - by destruct p.
Qed.

Lemma factor_is_word (n : nat) (p : Pauli) :
  action_string p +:+ str n ≠ "" ∧ no_space (action_string p +:+ str n).
Proof.
  split; [by destruct p|].
  unfold no_space. rewrite list_ascii_of_string_app. apply Forall_app. split.
  - destruct p; repeat constructor.
  - eapply Forall_impl; [apply str_digits|]. apply digit_not_space.
Qed.

Lemma parse_string_key (t : term) : parse_string (Preprocess.key t) = Ok t.
Proof.
  unfold parse_string, Preprocess.key.
  rewrite split_join.
  - induction t as [|[n p] t IH]; [done|].
    simpl. rewrite parse_factor_key. simpl. by rewrite IH.
  - apply Forall_forall. intros w Hw.
    apply list_elem_of_In, in_map_iff in Hw as ([n p] & <- & _).
    apply factor_is_word.
Qed.

(** ** Canonical terms *)

Lemma canonical_tail (f : nat * Pauli) (t : term) :
  canonical (f :: t) = true -> canonical t = true.
Proof. destruct t; simpl; [done|]. by intros [_ ?]%andb_true_iff. Qed.

Lemma canonical_sorted (t : term) : canonical t = true -> StronglySorted by_index t.
Proof.
  intros Hc. apply Sorted.Sorted_StronglySorted.
  { intros a b c. unfold by_index. lia. }
  induction t as [|f t IH]; [constructor|].
  constructor; [by eapply IH, canonical_tail|].
  destruct t as [|g t]; constructor.
  simpl in Hc. apply andb_true_iff in Hc as [Hlt _]. by apply Nat.ltb_lt in Hlt.
Qed.

Lemma canonical_NoDup (t : term) : canonical t = true -> NoDup t.*1.
Proof.
  intros Hc%canonical_sorted. induction Hc as [|f t _ IH Hf]; [constructor|].
  rewrite fmap_cons. constructor; [|done].
  intros ([n p] & E & Hin)%list_elem_of_fmap. rewrite Forall_forall in Hf.
  specialize (Hf _ Hin). unfold by_index in Hf. simpl in *. lia.
Qed.

Lemma canonical_last (t : term) (l f : nat * Pauli) :
  canonical t = true -> last t = Some l -> f ∈ t -> (f.1 <= l.1)%nat.
Proof.
  intros Hc%canonical_sorted. revert l.
  induction Hc as [|g t _ IH Hg]; intros l Hl Hin.
  - by apply elem_of_nil in Hin.
  - destruct t as [|g' t].
    + simpl in Hl. apply list_elem_of_singleton in Hin. by simplify_eq.
    + change (last (g :: g' :: t)) with (last (g' :: t)) in Hl.
      apply elem_of_cons in Hin as [->|Hin]; [|by apply IH].
      rewrite Forall_forall in Hg.
      assert (l ∈ g' :: t) as Hl' by by apply last_Some_elem_of.
      specialize (Hg _ Hl'). unfold by_index in Hg. lia.
Qed.

Lemma term_map_inj (t1 t2 : term) :
  canonical t1 = true -> canonical t2 = true -> term_map t1 = term_map t2 -> t1 = t2.
Proof.
  intros H1 H2 E.
  apply (StronglySorted_unique_strong by_index); [|by apply canonical_sorted..|].
  - unfold by_index. intros; lia.
  - apply list_to_map_inj in E; [done|by apply canonical_NoDup..].
Qed.

(** The key of a canonical term acts on qubit [i] with [p] exactly when the
    term has the factor [(i, p)]. *)
Lemma term_map_lookup (t : term) (i : nat) (p : Pauli) :
  canonical t = true -> term_map t !! i = Some p ↔ (i, p) ∈ t.
Proof.
  intros Hc. unfold term_map. symmetry. apply elem_of_list_to_map.
  by apply canonical_NoDup.
Qed.

Lemma term_map_empty (t : term) : term_map t = ∅ -> t = [].
Proof.
  destruct t as [|[i p] t]; [done|]. unfold term_map. simpl. intros E.
  by apply insert_non_empty in E.
Qed.

Lemma dict_of_pairs_term_map (t : term) :
  canonical t = true ->
  fold_left (fun (m : gmap nat Pauli) f => <[f.1 := f.2]> m) t ∅ = term_map t.
Proof.
  intros Hc%canonical_NoDup. unfold term_map.
  induction t as [|[i p] t IH] using rev_ind; [done|].
  rewrite fold_left_app. simpl. rewrite fmap_app in Hc.
  apply NoDup_app in Hc as (Ht & Hi & _).
  rewrite IH by done. symmetry. apply list_to_map_snoc.
  intros Hin. apply (Hi _ Hin). simpl. by apply list_elem_of_singleton.
Qed.

(** ** Simplifying a canonical term *)

Lemma sorted_by_index_canonical {A} (inj : Pauli -> A) (t : term) :
  canonical t = true ->
  sorted_by_index (List.map (fun f => (f.1, inj f.2)) t)
  = List.map (fun f => (f.1, inj f.2)) t.
Proof.
  induction t as [|f t IH]; [done|]. intros Hc.
  simpl. rewrite IH by by eapply canonical_tail.
  destruct t as [|g t]; [done|]. simpl in *.
  apply andb_true_iff in Hc as [Hlt _]. apply Nat.ltb_lt in Hlt.
  destruct (Nat.leb_spec f.1 g.1); [done | lia].
Qed.

Lemma simplify_loop_canonical (coeff : complex) (acc : term) (f : nat * Pauli) (t : term) :
  canonical (f :: t) = true ->
  simplify_loop coeff acc (f.1, Some f.2) (List.map (fun g => (g.1, Some g.2)) t)
  = (coeff, acc ++ f :: t).
Proof.
  revert acc f. induction t as [|g t IH]; intros acc f Hc.
  - simpl. by destruct f.
  - simpl in Hc. apply andb_true_iff in Hc as [Hlt Hc]. apply Nat.ltb_lt in Hlt.
    cbn [List.map simplify_loop]. cbn [fst snd].
    destruct (decide (f.1 = g.1)) as [E|_]; [lia|].
    rewrite IH by done. unfold keep_factor. cbn [fst snd].
    rewrite <- app_assoc. by destruct f.
Qed.

Lemma simplify_canonical (t : term) (coeff : complex) :
  canonical t = true -> simplify t coeff = (coeff, t).
Proof.
  intros Hc. unfold simplify. rewrite sorted_by_index_canonical by done.
  destruct t as [|f t]; [done|]. cbn [List.map].
  by rewrite simplify_loop_canonical.
Qed.

Lemma of_string_key (t : term) (coeff : complex) :
  canonical t = true -> of_string (Preprocess.key t) coeff = Ok [(t, coeff)].
Proof.
  intros Hc. unfold of_string, of_sequence. rewrite parse_string_key. simpl.
  by rewrite simplify_canonical.
Qed.

(** A term that is not canonical is put in order, and Paulis that meet on
    a qubit are multiplied. *)
Example of_string_simplifies :
  of_string "Z12 X0 Y0" (Complex (q 1 2) (q 0 1))
  = Ok [([(0, Z); (12, Z)]%nat, Complex (q 0 1) (q 1 2))].
Proof. by vm_compute. Qed.

(** ** Dictionaries *)

Section dict_facts.
Context {K V : Type} `{EqDecision K}.
Implicit Types (d : list (K * V)) (k : K) (v : V).

Lemma dict_get_None d k : dict_get d k = None ↔ k ∉ d.*1.
Proof.
  induction d as [|[k' v'] d IH]; simpl.
  - split; [intros _; apply not_elem_of_nil | done].
  - rewrite not_elem_of_cons. destruct (decide (k = k')) as [->|Hne].
    + split; [done | by intros [? _]].
    + rewrite IH. split; [done | by intros [_ ?]].
Qed.

Lemma dict_get_elem_of d k v : NoDup d.*1 -> (k, v) ∈ d -> dict_get d k = Some v.
Proof.
  induction d as [|[k' v'] d IH]; intros Hnd Hin.
  - by apply elem_of_nil in Hin.
  - rewrite fmap_cons in Hnd. apply NoDup_cons in Hnd as [Hk' Hnd]. simpl.
    apply elem_of_cons in Hin as [E|Hin].
    + simplify_eq. by rewrite decide_True.
    + destruct (decide (k = k')) as [->|]; [|by apply IH].
      exfalso. apply Hk'. apply list_elem_of_fmap. by exists (k', v).
Qed.

Lemma dict_set_fresh d k v : dict_get d k = None -> dict_set d k v = d ++ [(k, v)].
Proof.
  induction d as [|[k' v'] d IH]; simpl; [done|].
  destruct (decide (k = k')); [done|]. intros H. by rewrite IH.
Qed.
End dict_facts.

(** ** Adding a Pauli string to a sum *)

Lemma cadd_czero_l (c : complex) : cadd czero c = c.
Proof.
  destruct c as [re im]. unfold cadd, czero, of_real. simpl.
  by rewrite !Qcplus_0_l.
Qed.

Lemma clean_all_nonzero (s : PauliSum) : all_nonzero s -> clean s = s.
Proof.
  unfold clean. induction 1 as [|vc s Hvc _ IH]; [done|].
  simpl. by rewrite Hvc, IH.
Qed.

Lemma from_pauli_strings_single (m : gmap nat Pauli) (c : complex) :
  from_pauli_strings [mkPauliString m c] = if nonzero c then [(m, c)] else [].
Proof.
  unfold from_pauli_strings, linear_dict, setitem. simpl. rewrite cadd_czero_l.
  destruct (nonzero c) eqn:E; simpl; [|done]. by rewrite E.
Qed.

(** A string with a coefficient other than zero and a key the sum does not
    hold becomes the last term of the sum. *)
Lemma iadd_fresh (s : PauliSum) (m : gmap nat Pauli) (c : complex) :
  all_nonzero s -> nonzero c = true -> dict_get s m = None ->
  iadd s (mkPauliString m c) = s ++ [(m, c)].
Proof.
  intros Hs Hc Hm. unfold iadd. rewrite from_pauli_strings_single, Hc.
  unfold linear_dict_iadd, setitem. simpl. rewrite Hm. simpl.
  rewrite cadd_czero_l, Hc, dict_set_fresh by done.
  apply clean_all_nonzero, Forall_app. split; [done|]. by repeat constructor.
Qed.

(** A string with coefficient zero leaves no trace in a sum. *)
Example iadd_zero : iadd [] (pauli_string [(0, X)]%nat czero) = [].
Proof. by vm_compute. Qed.

(** Equal keys are merged, and a term that cancels disappears. *)
Example iadd_cancels :
  iadd (iadd [] (pauli_string [(0, X)]%nat (of_real (q 1 2))))
       (pauli_string [(0, X)]%nat (of_real (q (-1) 2))) = [].
Proof. by vm_compute. Qed.

(** ** Converting a single canonical term with openfermion *)

Lemma count_qubits_single (t : term) (c : complex) :
  count_qubits [(t, c)] = match last t with Some f => (f.1 + 1)%nat | None => 0%nat end.
Proof.
  unfold count_qubits. simpl. destruct (last t) as [f|]; [|done].
  destruct (Nat.ltb_spec 0 (f.1 + 1)); lia.
Qed.

Lemma mapM_line_qubits (n : nat) (t : term) :
  Forall (fun f : nat * Pauli => (f.1 < n)%nat) t ->
  mapM (fun f : nat * Pauli => q ← getitem (seq 0 n) f.1; Ok (q, f.2)) t = Ok t.
Proof.
  induction 1 as [|[i p] t Hi _ IH]; [done|].
  cbn [mapM]. rewrite IH. unfold getitem. cbn [fst snd] in *.
  by rewrite lookup_seq_lt by done.
Qed.

Lemma canonical_below_count (t : term) (c : complex) :
  canonical t = true ->
  Forall (fun f : nat * Pauli => (f.1 < count_qubits [(t, c)])%nat) t.
Proof.
  intros Hc. rewrite count_qubits_single. apply Forall_forall. intros f Hf.
  destruct (last t) as [l|] eqn:El.
  - pose proof (canonical_last t l f Hc El Hf). lia.
  - apply last_None in El. subst. by apply elem_of_nil in Hf.
Qed.

Lemma qubit_operator_to_pauli_sum_single (t : term) (c : complex) :
  canonical t = true ->
  qubit_operator_to_pauli_sum [(t, c)]
  = Ok (if nonzero c then [(term_map t, c)] else []).
Proof.
  intros Hc. unfold qubit_operator_to_pauli_sum, get_operators, of_sequence.
  cbn [List.map fst snd]. rewrite simplify_canonical by done.
  cbn [foldl]. unfold qubit_operator_term_to_pauli_string.
  cbn [next_iter mbind result_bind fst snd].
  rewrite mapM_line_qubits by by apply canonical_below_count.
  cbn [mbind result_bind].
  unfold pauli_string. rewrite dict_of_pairs_term_map by done.
  destruct (nonzero c) eqn:E.
  - by rewrite iadd_fresh by (done || constructor).
  - unfold iadd. by rewrite from_pauli_strings_single, E.
Qed.

(** What [preprocess_hamiltonian] adds for a kept term: the term itself,
    unless its coefficient is zero, when [next] finds nothing to return. *)
Lemma converted_canonical (h : QubitOperator) (t : term) (c : complex) :
  canonical t = true -> dict_get h t = Some c ->
  Preprocess.converted h t
  = if nonzero c then Ok (mkPauliString (term_map t) c) else Raise StopIteration.
Proof.
  intros Hc Hget. unfold Preprocess.converted. rewrite Hget.
  cbn [mbind result_bind]. rewrite of_string_key by done.
  cbn [mbind result_bind]. rewrite qubit_operator_to_pauli_sum_single by done.
  cbn [mbind result_bind]. by destruct (nonzero c).
Qed.

(** ** The loop of [preprocess_hamiltonian] *)

Lemma add_term_kept (ds : list (term -> bool)) (t : term) :
  Preprocess.add_term ds t = forallb (fun drop_term => negb (drop_term t)) ds.
Proof. induction ds as [|d ds IH]; simpl; [done|]. by destruct (d t). Qed.

Lemma well_formed_spec (h : QubitOperator) :
  well_formed h = true ↔ (∀ tc, tc ∈ h -> canonical tc.1 = true) ∧ NoDup h.*1.
Proof.
  unfold well_formed. rewrite andb_true_iff, forallb_forall, bool_decide_eq_true.
  split; intros [Hc Hnd]; (split; [|done]).
  - intros tc Hin. apply Hc, in_map, list_elem_of_In, Hin.
  - intros t ([t' c] & <- & Hin)%in_map_iff. by apply (Hc (t', c)), list_elem_of_In.
Qed.

Lemma elem_of_kept_terms ps (h : QubitOperator) tc :
  tc ∈ kept_terms ps h ↔ tc ∈ h ∧ kept ps tc.1 = true.
Proof. unfold kept_terms. rewrite !list_elem_of_In. apply filter_In. Qed.

Lemma kept_nonzero_spec ps (h : QubitOperator) :
  kept_nonzero ps h = true ↔
  ∀ t c, (t, c) ∈ h -> kept ps t = true -> nonzero c = true.
Proof.
  unfold kept_nonzero. rewrite forallb_forall. split.
  - intros H t c Hin Hk. apply (H (t, c)), list_elem_of_In, elem_of_kept_terms. done.
  - intros H [t c] [Hin Hk]%list_elem_of_In%elem_of_kept_terms. by apply (H t c).
Qed.

Lemma kept_terms_app ps (h1 h2 : QubitOperator) :
  kept_terms ps (h1 ++ h2) = kept_terms ps h1 ++ kept_terms ps h2.
Proof. apply List.filter_app. Qed.

Lemma kept_nonzero_app ps (h1 h2 : QubitOperator) :
  kept_nonzero ps (h1 ++ h2) = kept_nonzero ps h1 && kept_nonzero ps h2.
Proof. unfold kept_nonzero. by rewrite kept_terms_app, forallb_app. Qed.

Lemma for_each_app {S A : Type} (body : S -> A -> S * option exn) (xs ys : list A) (s : S) :
  for_each body (xs ++ ys) s
  = match for_each body xs s with
    | (s', None) => for_each body ys s'
    | stopped => stopped
    end.
Proof.
  revert s. induction xs as [|x xs IH]; intros s; [done|].
  simpl. destruct (body s x) as [s' [e|]]; [done | apply IH].
Qed.

Section preprocess_loop.
Variable h : QubitOperator.
Variable drop_term_if : option (list (term -> bool)).
Hypothesis Hwf : well_formed h = true.

(** The loop, as long as the kept terms have coefficients other than
    zero: the sum holds the kept terms seen so far. *)
Lemma preprocess_loop (seen todo rest : QubitOperator) :
  h = seen ++ todo ++ rest ->
  kept_nonzero drop_term_if (seen ++ todo) = true ->
  for_each (Preprocess.body (default [] drop_term_if)) (List.map fst todo)
    (Preprocess.mkFrame h (pauli_sum_of (kept_terms drop_term_if seen)))
  = (Preprocess.mkFrame h (pauli_sum_of (kept_terms drop_term_if (seen ++ todo))), None).
Proof.
  apply well_formed_spec in Hwf as [Hcan Hnd].
  revert seen. induction todo as [|[t c] todo IH]; intros seen Hh Hnz.
  { simpl. by rewrite app_nil_r. }
  pose proof (proj1 (kept_nonzero_spec _ _) Hnz) as Hnz'.
  assert ((t, c) ∈ h) as Hin.
  { rewrite Hh. apply elem_of_app. right. apply elem_of_app. left. left. }
  assert (∀ tc, tc ∈ seen -> tc ∈ h) as Hseen
    by (intros tc Htc; rewrite Hh; apply elem_of_app; by left).
  assert (t ∉ seen.*1) as Hfresh.
  { rewrite Hh, fmap_app in Hnd.
    apply NoDup_app in Hnd as (_ & Hdis & _).
    intros Ht. apply (Hdis t Ht). rewrite fmap_app, fmap_cons.
    apply elem_of_app. left. left. }
  cbn [List.map for_each fst]. unfold Preprocess.body at 1.
  rewrite add_term_kept. fold (kept drop_term_if t).
  cbn [Preprocess.hamiltonian Preprocess.new].
  specialize (IH (seen ++ [(t, c)])).
  rewrite <- !app_assoc in IH. specialize (IH Hh Hnz).
  rewrite (kept_terms_app _ seen) in IH.
  unfold pauli_sum_of at 1 in IH. rewrite List.map_app in IH.
  fold (pauli_sum_of (kept_terms drop_term_if seen)) in IH.
  unfold kept_terms at 2 in IH. cbn [List.filter fst] in IH.
  destruct (kept drop_term_if t) eqn:Hk.
  - rewrite (converted_canonical h t c);
      [| by apply (Hcan (t, c)) | by apply dict_get_elem_of].
    assert (nonzero c = true) as Hc.
    { apply (Hnz' t c); [|done]. apply elem_of_app. right. left. }
    rewrite Hc, iadd_fresh; [exact IH | | done |].
    + apply Forall_forall. intros [m c'] ([t' c''] & E & Hin')%list_elem_of_fmap.
      injection E as -> ->. apply elem_of_kept_terms in Hin' as [Hin' Hk'].
      apply (Hnz' t' c''); [|done]. apply elem_of_app. by left.
    + apply dict_get_None.
      intros ([m c'] & E & ([t' c''] & E' & Hin')%list_elem_of_fmap)%list_elem_of_fmap.
      simpl in E. subst m. injection E' as E' _.
      apply elem_of_kept_terms in Hin' as [Hin' _].
      assert (t' = t) as ->.
      { apply term_map_inj; [| |done].
        - by apply (Hcan (t', c'')), Hseen.
        - apply (Hcan (t, c)), Hin. }
      apply Hfresh, list_elem_of_fmap. by exists (t, c'').
  - simpl in IH. by rewrite app_nil_r in IH.
Qed.

Lemma preprocess_run_spec :
  kept_nonzero drop_term_if h = true ->
  Preprocess.run h drop_term_if
  = (Preprocess.mkFrame h (pauli_sum_of (kept_terms drop_term_if h)), None).
Proof.
  intros Hnz. unfold Preprocess.run.
  by apply (preprocess_loop [] h []); [rewrite app_nil_r|].
Qed.

Lemma preprocess_hamiltonian_spec :
  kept_nonzero drop_term_if h = true ->
  preprocess_hamiltonian h drop_term_if = Ok (pauli_sum_of (kept_terms drop_term_if h)).
Proof. intros Hnz. unfold preprocess_hamiltonian. by rewrite preprocess_run_spec. Qed.

(** The loop stops at the first kept term whose coefficient is zero. *)
Lemma preprocess_run_stop (pre post : QubitOperator) (t : term) (c : complex) :
  h = pre ++ (t, c) :: post ->
  kept_nonzero drop_term_if pre = true ->
  kept drop_term_if t = true ->
  nonzero c = false ->
  Preprocess.run h drop_term_if
  = (Preprocess.mkFrame h (pauli_sum_of (kept_terms drop_term_if pre)),
     Some StopIteration).
Proof.
  intros Hh Hpre Hk Hc. unfold Preprocess.run. cbn [default].
  change (Preprocess.mkFrame h [])
    with (Preprocess.mkFrame h (pauli_sum_of (kept_terms drop_term_if []))).
  replace (List.map fst h) with (List.map fst pre ++ List.map fst ((t, c) :: post))
    by by rewrite Hh, List.map_app.
  rewrite for_each_app.
  rewrite (preprocess_loop [] pre ((t, c) :: post)) by done.
  simpl. unfold Preprocess.body. rewrite add_term_kept. fold (kept drop_term_if t).
  rewrite Hk. cbn [Preprocess.hamiltonian].
  pose proof Hwf as [Hcan Hnd]%well_formed_spec.
  assert ((t, c) ∈ h) as Hin by (rewrite Hh; apply elem_of_app; right; left).
  rewrite (converted_canonical h t c);
    [| by apply (Hcan (t, c)) | by apply dict_get_elem_of].
  by rewrite Hc.
Qed.
End preprocess_loop.

Lemma first_kept_zero ps (h : QubitOperator) :
  kept_nonzero ps h = false ->
  ∃ pre t c post,
    h = pre ++ (t, c) :: post ∧ kept_nonzero ps pre = true
    ∧ kept ps t = true ∧ nonzero c = false.
Proof.
  induction h as [|[t c] h IH]; [done|]. intros Hz.
  change ((t, c) :: h) with ([(t, c)] ++ h) in Hz.
  rewrite kept_nonzero_app in Hz.
  destruct (kept_nonzero ps [(t, c)]) eqn:Ht.
  - destruct (IH Hz) as (pre & t' & c' & post & -> & Hpre & Hk & Hc).
    exists ((t, c) :: pre), t', c', post. split; [done|]. split; [|done].
    change ((t, c) :: pre) with ([(t, c)] ++ pre).
    by rewrite kept_nonzero_app, Ht.
  - exists [], t, c, h. split; [done|]. split; [done|].
    unfold kept_nonzero, kept_terms in Ht. simpl in Ht.
    destruct (kept ps t); [|done]. simpl in Ht. split; [done|].
    by destruct (nonzero c).
Qed.

(** On an operator as openfermion stores it, the call returns exactly when
    every kept term has a coefficient other than zero; otherwise it raises
    [StopIteration]. *)
Lemma preprocess_hamiltonian_stop_iteration
    (h : QubitOperator) (drop_term_if : option (list (term -> bool))) :
  well_formed h = true ->
  kept_nonzero drop_term_if h = false ->
  preprocess_hamiltonian h drop_term_if = Raise StopIteration.
Proof.
  intros Hwf (pre & t & c & post & Hh & Hpre & Hk & Hc)%first_kept_zero.
  unfold preprocess_hamiltonian.
  by rewrite (preprocess_run_stop h drop_term_if Hwf pre post t c).
Qed.

(** *** Dropping the identity *)

Lemma kept_is_identity (t : term) :
  kept (Some [is_identity]) t = negb (bool_decide (t = [])).
Proof. unfold kept, is_identity. simpl. by rewrite andb_true_r. Qed.

Lemma length_without_key {V : Type} (k : term) (d : list (term * V)) :
  NoDup d.*1 ->
  length (List.filter (fun kv => negb (bool_decide (kv.1 = k))) d)
  = if bool_decide (k ∈ d.*1) then (length d - 1)%nat else length d.
Proof.
  induction d as [|[k' v] d IH]; intros Hnd; [done|].
  rewrite fmap_cons in Hnd. apply NoDup_cons in Hnd as [Hk' Hnd].
  specialize (IH Hnd). cbn [List.filter fst]. rewrite fmap_cons. cbn [fst].
  destruct (decide (k' = k)) as [->|Hne].
  - rewrite bool_decide_eq_true_2 by done. cbn [negb].
    rewrite (bool_decide_eq_false_2 (k ∈ d.*1)) in IH by done.
    rewrite bool_decide_eq_true_2 by by left. simpl. lia.
  - rewrite bool_decide_eq_false_2 by done. cbn [negb length]. rewrite IH.
    destruct (decide (k ∈ d.*1)) as [Hin|Hnin].
    + rewrite !bool_decide_eq_true_2; [|by right|done].
      destruct d; [by apply elem_of_nil in Hin | simpl; lia].
    + rewrite !bool_decide_eq_false_2; [done| |done].
      intros [E|Hin]%elem_of_cons; [by subst | done].
Qed.

(** ** Loops that keep part of the frame *)

Lemma for_each_preserves {S A B : Type} (proj : S -> B) (body : S -> A -> S * option exn) :
  (∀ s x, proj (body s x).1 = proj s) ->
  ∀ xs s, proj (for_each body xs s).1 = proj s.
Proof.
  intros Hbody xs. induction xs as [|x xs IH]; intros s; [done|].
  simpl. pose proof (Hbody s x) as Hx.
  destruct (body s x) as [s' [e|]]; simpl in *; [done|].
  by rewrite IH.
Qed.

Lemma preprocess_body_hamiltonian ds (fr : Preprocess.frame) (t : term) :
  Preprocess.hamiltonian (Preprocess.body ds fr t).1 = Preprocess.hamiltonian fr.
Proof.
  unfold Preprocess.body. destruct (Preprocess.add_term ds t); [|done].
  by destruct (Preprocess.converted _ _).
Qed.

Lemma convert_body_pauli_sum qubits (fr : Convert.frame) (term : PauliString) :
  Convert.pauli_sum (Convert.body qubits fr term).1 = Convert.pauli_sum fr.
Proof.
  unfold Convert.body. destruct (Convert.label qubits term); [|done].
  by destruct (isclose _ _ _).
Qed.

(** ** The qubits of a sum *)

Lemma qubits_sorted (ps : PauliSum) : Sorted Nat.le (qubits ps).
Proof. unfold qubits. apply Sorted_merge_sort. intros a b. lia. Qed.

Lemma elem_of_qubits (ps : PauliSum) (qubit : nat) :
  qubit ∈ qubits ps ↔ ∃ m c, (m, c) ∈ ps ∧ is_Some (m !! qubit).
Proof.
  unfold qubits. rewrite merge_sort_Permutation, elem_of_elements, elem_of_union_list.
  split.
  - intros (X & HX & Hq). apply list_elem_of_In, in_map_iff in HX as ([m c] & <- & Hin).
    exists m, c. split; [by apply list_elem_of_In|]. by apply elem_of_dom.
  - intros (m & c & Hin & Hq). exists (dom m). split; [|by apply elem_of_dom].
    apply list_elem_of_In, in_map_iff. exists (m, c). split; [done|].
    by apply list_elem_of_In.
Qed.

Lemma qubits_NoDup (ps : PauliSum) : NoDup (qubits ps).
Proof. unfold qubits. rewrite merge_sort_Permutation. apply NoDup_elements. Qed.

(** ** Labels *)

Lemma extend_letter (term : PauliString) (s : string) (qubit : nat) :
  Convert.extend term (Ok s) qubit
  = Ok (s +:+ String (letter (qubit_pauli_map term !! qubit)) "").
Proof.
  unfold Convert.extend, contains, pauli_at. cbn [mbind result_bind].
  destruct (qubit_pauli_map term !! qubit) as [p|] eqn:E.
  - rewrite bool_decide_eq_true_2 by by eexists. simpl. by destruct p.
  - rewrite bool_decide_eq_false_2; [done|]. by intros [? ?].
Qed.

Lemma label_from (term : PauliString) (qubits : list nat) (s : string) :
  foldl (Convert.extend term) (Ok s) qubits = Ok (s +:+ label_of qubits term).
Proof.
  revert s. induction qubits as [|qubit qubits IH]; intros s.
  - simpl. by rewrite append_empty_r.
  - cbn [foldl]. rewrite extend_letter, IH. unfold label_of. simpl.
    by rewrite append_snoc.
Qed.

Lemma label_spec (qubits : list nat) (term : PauliString) :
  Convert.label qubits term = Ok (label_of qubits term).
Proof. unfold Convert.label. by rewrite label_from. Qed.

Lemma label_of_length (qubits : list nat) (term : PauliString) :
  String.length (label_of qubits term) = length qubits.
Proof. unfold label_of. by rewrite length_string_of_list_ascii, length_map. Qed.

Lemma label_of_get (qubits : list nat) (term : PauliString) (j qubit : nat) :
  qubits !! j = Some qubit ->
  String.get j (label_of qubits term) = Some (letter (qubit_pauli_map term !! qubit)).
Proof.
  intros Hq. unfold label_of. rewrite get_string_of_list_ascii.
  change (List.map ?f qubits) with (f <$> qubits).
  by rewrite list_lookup_fmap, Hq.
Qed.

(** ** The tolerance *)

Lemma isclose_zero (x atol : Qc) :
  isclose x (Q2Qc 0) atol = true ↔ (Qcabs x <= atol)%Qc.
Proof.
  unfold isclose. rewrite bool_decide_eq_true.
  replace (x - Q2Qc 0)%Qc with x by ring.
  replace (Qcabs (Q2Qc 0)) with (Q2Qc 0) by (symmetry; by apply Qcabs_pos).
  by replace (atol + rtol * Q2Qc 0)%Qc with atol by ring.
Qed.

Lemma close_spec (term : PauliString) :
  close term = true ↔ (Qcabs (imag (coefficient term)) <= Convert.atol)%Qc.
Proof. apply isclose_zero. Qed.

Lemma not_close_spec (term : PauliString) :
  close term = false ↔ (Convert.atol < Qcabs (imag (coefficient term)))%Qc.
Proof.
  rewrite <- not_true_iff_false, close_spec. split.
  - apply Qcnot_le_lt.
  - apply Qclt_not_le.
Qed.

(** ** The loop of [cirq_pauli_sum_to_qiskit_pauli_op] *)

Lemma convert_body_close (qubits : list nat) (fr : Convert.frame) (term : PauliString) :
  close term = true ->
  Convert.body qubits fr term
  = (Convert.mkFrame (Convert.pauli_sum fr)
       (Convert.terms fr ++ [label_of qubits term])
       (Convert.coeffs fr ++ [real (coefficient term)]), None).
Proof.
  intros Hc. unfold Convert.body. rewrite label_spec. unfold close in Hc.
  by rewrite Hc.
Qed.

Lemma convert_body_far (qubits : list nat) (fr : Convert.frame) (term : PauliString) :
  close term = false -> (Convert.body qubits fr term).2 = Some AssertionError.
Proof.
  intros Hc. unfold Convert.body. rewrite label_spec. unfold close in Hc.
  by rewrite Hc.
Qed.

Lemma convert_loop_close (qubits : list nat) (ts : list PauliString) (fr : Convert.frame) :
  Forall (fun term => close term = true) ts ->
  for_each (Convert.body qubits) ts fr
  = (Convert.mkFrame (Convert.pauli_sum fr)
       (Convert.terms fr ++ List.map (label_of qubits) ts)
       (Convert.coeffs fr ++ List.map (fun term => real (coefficient term)) ts), None).
Proof.
  intros Hts. revert fr. induction Hts as [|term ts Hc _ IH]; intros fr.
  - simpl. rewrite !app_nil_r. by destruct fr.
  - cbn [for_each]. rewrite convert_body_close by done. rewrite IH. simpl.
    by rewrite <- !app_assoc.
Qed.

Lemma convert_loop_far (qubits : list nat) (ts : list PauliString) (fr : Convert.frame) :
  Exists (fun term => close term = false) ts ->
  (for_each (Convert.body qubits) ts fr).2 = Some AssertionError.
Proof.
  revert fr. induction ts as [|term ts IH]; intros fr Hex.
  - by apply Exists_nil in Hex.
  - cbn [for_each]. destruct (close term) eqn:Hc.
    + rewrite convert_body_close by done. apply IH.
      apply Exists_cons in Hex as [Hex|Hex]; [congruence | done].
    + pose proof (convert_body_far qubits fr term Hc) as Hb.
      destruct (Convert.body qubits fr term) as [fr' [e|]]; simpl in *;
        [done | discriminate].
Qed.

Lemma close_all_or_some (ts : list PauliString) :
  Forall (fun term => close term = true) ts
  ∨ Exists (fun term => close term = false) ts.
Proof.
  induction ts as [|term ts [IH|IH]].
  - left. constructor.
  - destruct (close term) eqn:Hc; [left | right]; by constructor.
  - right. by apply Exists_cons_tl.
Qed.

Lemma convert_close (ps : PauliSum) :
  Forall (fun term => close term = true) (iter ps) ->
  cirq_pauli_sum_to_qiskit_pauli_op ps
  = sparse_pauli_op (List.map (label_of (qubits ps)) (iter ps))
                    (List.map (fun term => real (coefficient term)) (iter ps)).
Proof.
  intros Hc. unfold cirq_pauli_sum_to_qiskit_pauli_op, Convert.run.
  by rewrite convert_loop_close.
Qed.

Lemma convert_far (ps : PauliSum) :
  Exists (fun term => close term = false) (iter ps) ->
  cirq_pauli_sum_to_qiskit_pauli_op ps = Raise AssertionError.
Proof.
  intros Hex. unfold cirq_pauli_sum_to_qiskit_pauli_op, Convert.run.
  pose proof (convert_loop_far (qubits ps) (iter ps) (Convert.mkFrame ps [] []) Hex) as H.
  destruct (for_each _ _ _) as [fr [e|]]; simpl in H; [by simplify_eq | discriminate].
Qed.

Lemma sparse_pauli_op_not_assertion (data : list string) (cs : list Qc) :
  sparse_pauli_op data cs ≠ Raise AssertionError.
Proof. by destruct data. Qed.

(** The labels and coefficients of the sample sum; the imaginary part
    [1e-08] of its second coefficient is dropped. *)
Example convert_sample :
  cirq_pauli_sum_to_qiskit_pauli_op sum_sample
  = Ok (mkSparsePauliOp ["XIZ"; "IYI"] [q 1 2; q (-1) 4]).
Proof. by vm_compute. Qed.

Example convert_complex :
  cirq_pauli_sum_to_qiskit_pauli_op sum_complex = Raise AssertionError.
Proof. by vm_compute. Qed.

(** ** Rounding *)

Local Open Scope Qc_scope.

Lemma Qcle_minus_nonneg (a b : Qc) : a <= b ↔ 0 <= b - a.
Proof.
  split; intros Hab.
  - apply (Qcplus_le_mono_r _ _ (- a)) in Hab.
    by replace (a + - a) with 0 in Hab by ring.
  - apply (Qcplus_le_mono_r _ _ (- a)). by replace (a + - a) with 0 by ring.
Qed.

Lemma floor_remainder (x : Qc) :
  0 <= x - Q2Qc (inject_Z (Qfloor x)) ∧ x - Q2Qc (inject_Z (Qfloor x)) < 1.
Proof.
  split.
  - apply (proj1 (Qcle_minus_nonneg _ _)). unfold Qcle. simpl.
    rewrite Qred_correct. apply Qfloor_le.
  - apply (Qcplus_lt_mono_r _ _ (Q2Qc (inject_Z (Qfloor x)))).
    replace (x - Q2Qc (inject_Z (Qfloor x)) + Q2Qc (inject_Z (Qfloor x))) with x by ring.
    unfold Qclt. simpl. rewrite !Qred_correct.
    pose proof (Qlt_floor x) as Hlt. rewrite inject_Z_plus in Hlt.
    by rewrite Qplus_comm.
Qed.

Lemma Q2Qc_succ (z : BinNums.Z) :
  Q2Qc (inject_Z (z + 1)) = Q2Qc (inject_Z z) + 1.
Proof.
  unfold Qcplus. apply Q2Qc_eq_iff. simpl. rewrite !Qred_correct.
  by rewrite inject_Z_plus.
Qed.

Lemma half_plus_half : half + half = 1.
Proof. by apply Qc_is_canon. Qed.

(** [round] returns a nearest integer, and the even one at a tie. *)
Lemma round_nearest (x : Qc) :
  Qcabs (x - Q2Qc (inject_Z (Num.round x))) <= half ∧
  (Qcabs (x - Q2Qc (inject_Z (Num.round x))) = half -> Z.even (Num.round x) = true).
Proof.
  destruct (floor_remainder x) as [H0 H1]. unfold Num.round.
  set (f := Qfloor x) in *. set (r := x - Q2Qc (inject_Z f)) in *.
  fold half.
  assert (x - Q2Qc (inject_Z (f + 1)) = r - 1) as Eup.
  { rewrite Q2Qc_succ. unfold r. ring. }
  assert (r - 1 <= 0) as Hneg.
  { apply Qclt_le_weak in H1. apply Qcle_minus_nonneg in H1.
    apply Qcle_minus_nonneg. by replace (0 - (r - 1)) with (1 - r) by ring. }
  assert (Qcabs (r - 1) = 1 - r) as Eabs.
  { rewrite Qcabs_neg by done. ring. }
  case_bool_decide as Hlo; [|case_bool_decide as Hhi].
  - fold r. rewrite Qcabs_pos by done. split; [by apply Qclt_le_weak|].
    intros E. rewrite E in Hlo. by apply Qclt_not_eq in Hlo.
  - rewrite Eup, Eabs. split.
    + apply Qclt_le_weak.
      apply (Qcplus_lt_mono_r _ _ (r - half)).
      replace (1 - r + (r - half)) with half by (rewrite <- half_plus_half; ring).
      by replace (half + (r - half)) with r by ring.
    + intros E. exfalso. apply (Qclt_not_eq _ _ Hhi).
      apply (f_equal (fun y => 1 - y)) in E.
      replace (1 - (1 - r)) with r in E by ring. rewrite E.
      rewrite <- half_plus_half. ring.
  - assert (r = half) as Er.
    { apply Qcle_antisym; [by apply Qcnot_lt_le | by apply Qcnot_lt_le]. }
    destruct (Z.even f) eqn:Ef.
    + fold r. rewrite Qcabs_pos by done.
      split; [by rewrite Er; apply Qcle_refl | done].
    + rewrite Eup, Eabs, Er.
      replace (1 - half) with half by (rewrite <- half_plus_half; ring).
      split; [apply Qcle_refl|]. intros _.
      by rewrite Z.even_add, Ef.
Qed.

Example round_ties :
  Num.round half = 0%Z ∧ Num.round (1 + half) = 2%Z
  ∧ Num.round (q 5 2) = 2%Z ∧ Num.round (q (-1) 2) = 0%Z
  ∧ Num.round (q 7 4) = 2%Z.
Proof. by vm_compute. Qed.

Lemma Qc_inject_le (a b : BinNums.Z) :
  Q2Qc (inject_Z a) <= Q2Qc (inject_Z b) -> (a <= b)%Z.
Proof.
  unfold Qcle. simpl. rewrite !Qred_correct. by rewrite <- Zle_Qle.
Qed.

Lemma Qc_inject_sub (a b : BinNums.Z) :
  Q2Qc (inject_Z a) - Q2Qc (inject_Z b) = Q2Qc (inject_Z (a - b)).
Proof.
  apply Qc_is_canon. unfold Qcminus, Qcplus, Qcopp. simpl.
  rewrite !Qred_correct. unfold Z.sub. rewrite inject_Z_plus, inject_Z_opp. reflexivity.
Qed.

(** The nearest integer, the even one at a tie, is one integer. *)
Lemma nearest_even_unique (x : Qc) (n n' : BinNums.Z) :
  nearest_even x n -> nearest_even x n' -> n = n'.
Proof.
  intros [Hn En] [Hn' En'].
  set (d := x - Q2Qc (inject_Z n)) in *. set (d' := x - Q2Qc (inject_Z n')) in *.
  apply Qcabs_Qcle_condition in Hn as [Hl Hu], Hn' as [Hl' Hu'].
  assert (Q2Qc (inject_Z (n' - n)) = d - d') as Ek.
  { rewrite <- Qc_inject_sub. unfold d, d'. ring. }
  assert (half + half = 1) as Hh by by apply Qc_is_canon.
  assert (d - d' <= 1) as Hle.
  { rewrite <- Hh. unfold Qcminus. apply Qcplus_le_compat; [done|].
    apply Qcopp_le_compat in Hl'. by rewrite Qcopp_involutive in Hl'. }
  assert (- (1) <= d - d') as Hge.
  { replace (- (1)) with (- half + - half) by (rewrite <- Hh; ring).
    unfold Qcminus. apply Qcplus_le_compat; [done|]. by apply Qcopp_le_compat. }
  rewrite <- Ek in Hle, Hge.
  apply (Qc_inject_le _ 1) in Hle. apply (Qc_inject_le (-1)) in Hge.
  destruct (decide (n' - n = 0)%Z) as [|Hne]; [lia|]. exfalso.
  assert (Z.even n = true ∧ Z.even n' = true) as [Ev Ev'].
  { destruct (decide (n' - n = 1)%Z) as [E1|E1].
    - rewrite E1 in Ek. change (Q2Qc (inject_Z 1)) with 1 in Ek.
      assert (d = half) as Ed.
      { apply Qcle_antisym; [done|]. 
        replace d with (1 + d') by (rewrite Ek; ring).
        replace half with (1 + - half) at 1 by (rewrite <- Hh; ring).
        apply Qcplus_le_compat; [apply Qcle_refl | done]. }
      assert (d' = - half) as Ed'.
      { replace d' with (d - 1) by (rewrite Ek; ring). rewrite Ed, <- Hh. ring. }
      split.
      + apply En. rewrite Ed. by apply Qcabs_pos.
      + apply En'. rewrite Ed'. rewrite Qcabs_opp. by apply Qcabs_pos.
    - assert (n' - n = -1)%Z as E2 by lia.
      rewrite E2 in Ek. change (Q2Qc (inject_Z (-1))) with (- (1)) in Ek.
      assert (d' = half) as Ed'.
      { apply Qcle_antisym; [done|].
        assert (d' = 1 + d) as ->.
        { replace d' with (d - (d - d')) by ring. rewrite <- Ek. ring. }
        replace half with (1 + - half) at 1 by (rewrite <- Hh; ring).
        apply Qcplus_le_compat; [apply Qcle_refl | done]. }
      assert (d = - half) as Ed.
      { replace d with (d' + (d - d')) by ring. rewrite <- Ek, Ed', <- Hh. ring. }
      split.
      + apply En. rewrite Ed. rewrite Qcabs_opp. by apply Qcabs_pos.
      + apply En'. rewrite Ed'. by apply Qcabs_pos. }
  assert (Z.even (n' - n) = true) as Ev''.
  { rewrite Z.even_sub, Ev, Ev'. reflexivity. }
  assert (n' - n = 1 ∨ n' - n = -1)%Z as [E|E] by lia; by rewrite E in Ev''.
Qed.

Local Close Scope Qc_scope.

(** ** Doubles *)

(** The literals of the notebook are the doubles that Python reads them
    as. *)
Lemma literals :
  Float.literal 1 10 = double_0_1 ∧ Float.literal 1 100 = double_0_01
  ∧ Float.literal 1 1000 = double_0_001.
Proof. by vm_compute. Qed.

(** None of the three is the decimal it stands for, and the error is below
    one part in [2^54]. *)
Example accuracies_values :
  List.map Float.value accuracies
  = [q 3602879701896397 36028797018963968; q 5764607523034235 576460752303423488;
     q 1152921504606847 1152921504606846976]
  ∧ Forall2 (fun near exact => near ≠ exact
                               ∧ (Qcabs (near - exact) * q 18014398509481984 1 <= exact)%Qc)
      (List.map Float.value accuracies) [q 1 10; q 1 100; q 1 1000].
Proof.
  split.
  - unfold accuracies. cbn [List.map].
    replace (Float.value double_0_1) with (q 3602879701896397 36028797018963968)
      by (apply Qc_is_canon; by vm_compute).
    replace (Float.value double_0_01) with (q 5764607523034235 576460752303423488)
      by (apply Qc_is_canon; by vm_compute).
    replace (Float.value double_0_001) with (q 1152921504606847 1152921504606846976)
      by (apply Qc_is_canon; by vm_compute).
    reflexivity.
  - repeat constructor; by vm_compute.
Qed.

(** [0.0025 / 0.001] is [2.5] and rounds to 2, although 0.0025 as a double
    is more than two and a half times 0.001; [0.0005 / 0.001] is [0.5] and
    rounds to 0; [1e306 / 0.001] is infinite. *)
Example nsteps_samples :
  nsteps abs_of_real sum_of_one [c_0_0025] = Ok 2%Z
  ∧ Num.round (Float.value c_0_0025.1 / q 1 1000)%Qc = 3%Z
  ∧ nsteps abs_of_real sum_of_one [c_0_0005] = Ok 0%Z
  ∧ nsteps abs_of_real sum_of_one [c_1e306] = Raise OverflowError.
Proof. by vm_compute. Qed.

(** ** The loop over [kvals] *)

Section shots_facts.
Context {Groups GroupsOf Vector : Type}.
Variable get_si_sets : PauliSum -> nat -> Groups.
Variable to_groups_of : Groups -> GroupsOf.
Variable compute_shots : GroupsOf -> Vector -> BinNums.Z -> Float.float.
Variable names : gset string.
Variable hamiltonian : PauliSum.
Variable evec : Vector.

Lemma shots_row (k : nat) :
  List.map
    (fun epsilon =>
       Float.div (base_shots get_si_sets to_groups_of compute_shots hamiltonian evec k)
         (Float.square epsilon)) epsilons
  = expected_row (compute_shots (to_groups_of (get_si_sets hamiltonian k)) evec 1%Z).
Proof.
  unfold epsilons, expected_row, accuracies.
  destruct literals as (-> & -> & ->). reflexivity.
Qed.

Lemma shots_loop_bound (ks : list nat) (acc : list (list Float.float)) :
  "kcommute" ∈ names -> "convert" ∈ names ->
  for_each (shots_body get_si_sets to_groups_of compute_shots names hamiltonian evec) ks acc
  = (acc ++ List.map
       (fun k => expected_row (compute_shots (to_groups_of (get_si_sets hamiltonian k))
                                 evec 1%Z))
       ks, None).
Proof.
  intros Hk Hc. revert acc. induction ks as [|k ks IH]; intros acc.
  - simpl. by rewrite app_nil_r.
  - cbn [for_each]. unfold shots_body at 1.
    rewrite !decide_True by done. rewrite shots_row, IH. simpl.
    by rewrite <- app_assoc.
Qed.

Lemma shots_loop_unbound (k : nat) (ks : list nat) (acc : list (list Float.float)) :
  ¬ ("kcommute" ∈ names ∧ "convert" ∈ names) ->
  (for_each (shots_body get_si_sets to_groups_of compute_shots names hamiltonian evec)
     (k :: ks) acc).1 = acc.
Proof.
  intros Hn. cbn [for_each]. unfold shots_body.
  destruct (decide ("kcommute" ∈ names)); [|done].
  destruct (decide ("convert" ∈ names)); [|done].
  by destruct Hn.
Qed.
End shots_facts.

(** * What the notebook's functions guarantee *)

Lemma kept_spec (drop_term_if : option (list (term -> bool))) (t : term) :
  kept drop_term_if t = true ↔
  ∀ drop_term, drop_term ∈ default [] drop_term_if -> drop_term t = false.
Proof.
  unfold kept. rewrite forallb_forall. split.
  - intros H d Hd. apply negb_true_iff, H, list_elem_of_In, Hd.
  - intros H d Hd. apply negb_true_iff, H, list_elem_of_In, Hd.
Qed.

(** C1, amended.  Let [h] be a qubit operator as openfermion stores it, and
    let every term of [h] of which no predicate of [drop_term_if] holds have a
    coefficient other than zero ([None] stands for the empty list of
    predicates).  Then [preprocess_hamiltonian h drop_term_if] returns a
    sum whose terms are exactly those terms of [h], in the order of
    [h.terms]: a pair [(m, c)] is a term of the sum exactly when [h] has a
    term [t] with coefficient [c] that no predicate drops and [m] holds the
    Pauli [p] on qubit [i] exactly when [(i, p)] is a factor of [t]. *)
Theorem preprocess_hamiltonian_keeps_terms
    (h : QubitOperator) (drop_term_if : option (list (term -> bool))) :
  well_formed h = true ->
  kept_nonzero drop_term_if h = true ->
  preprocess_hamiltonian h drop_term_if = Ok (pauli_sum_of (kept_terms drop_term_if h))
  ∧ ∀ (m : gmap nat Pauli) (c : complex),
      (m, c) ∈ pauli_sum_of (kept_terms drop_term_if h) ↔
      ∃ t, (t, c) ∈ h
           ∧ (∀ drop_term, drop_term ∈ default [] drop_term_if -> drop_term t = false)
           ∧ ∀ i p, m !! i = Some p ↔ (i, p) ∈ t.
Proof.
  intros Hwf Hnz. split; [by apply preprocess_hamiltonian_spec|].
  apply well_formed_spec in Hwf as [Hcan _].
  intros m c. unfold pauli_sum_of. split.
  - intros ([t c'] & E & [Hin Hk]%elem_of_kept_terms)%list_elem_of_fmap.
    simpl in E. injection E as Em Ec. subst m c'.
    exists t. split; [done|]. split; [by apply kept_spec|].
    intros i p. apply term_map_lookup, (Hcan (t, c) Hin).
  - intros (t & Hin & Hk & Hm). apply list_elem_of_fmap. exists (t, c). split.
    + simpl. f_equal. apply map_eq. intros i. apply option_eq. intros p.
      rewrite Hm. symmetry. apply term_map_lookup, (Hcan (t, c) Hin).
    + apply elem_of_kept_terms. split; [done|]. by apply kept_spec.
Qed.

Lemma preprocess_hamiltonian_keeps_terms_witness :
  well_formed h_sample = true
  ∧ kept_nonzero None h_sample = true
  ∧ preprocess_hamiltonian h_sample None = Ok (pauli_sum_of (kept_terms None h_sample)).
Proof.
  split; [by vm_compute|]. split; [by vm_compute|].
  apply (preprocess_hamiltonian_keeps_terms h_sample None); by vm_compute.
Defined.

(** C1 as stated fails on [0.0 [X0]]: the operator is well formed and no
    term is dropped, yet the call raises [StopIteration] instead of
    returning the sum of its terms. *)
Lemma preprocess_hamiltonian_zero_coefficient :
  well_formed h_zero = true
  ∧ preprocess_hamiltonian h_zero None = Raise StopIteration
  ∧ preprocess_hamiltonian h_zero None ≠ Ok (pauli_sum_of (kept_terms None h_zero)).
Proof. by vm_compute. Qed.

(** C9, amended.  Let [h] be a qubit operator as openfermion stores it
    whose terms other than the identity all have a coefficient other than
    zero.  Then the notebook's call, with the single predicate
    [lambda term: term == ()], returns a sum that has no identity term, and
    the number of its terms is that of [h] less one when [h] has the
    identity term and that of [h] otherwise. *)
Theorem drop_identity_term_count (h : QubitOperator) :
  well_formed h = true ->
  kept_nonzero (Some [is_identity]) h = true ->
  ∃ s : PauliSum,
    preprocess_hamiltonian h (Some [is_identity]) = Ok s
    ∧ (∀ c, (∅, c) ∉ s)
    ∧ length s = if bool_decide ([] ∈ h.*1) then (length h - 1)%nat else length h.
Proof.
  intros Hwf Hnz. eexists. split; [by apply preprocess_hamiltonian_spec|].
  apply well_formed_spec in Hwf as [_ Hnd]. split.
  - intros c ([t c'] & E & [_ Hk]%elem_of_kept_terms)%list_elem_of_fmap.
    injection E as E _. symmetry in E. apply term_map_empty in E.
    simpl in Hk. rewrite kept_is_identity in Hk. subst t.
    by rewrite bool_decide_eq_true_2 in Hk.
  - unfold pauli_sum_of. rewrite length_map. unfold kept_terms.
    etrans; [|exact (length_without_key [] h Hnd)]. f_equal.
    apply List.filter_ext. intros [t c]. rewrite kept_is_identity. f_equal.
    by apply bool_decide_ext.
Qed.

Lemma drop_identity_term_count_witness :
  well_formed h_sample = true
  ∧ kept_nonzero (Some [is_identity]) h_sample = true
  ∧ ∃ s : PauliSum,
      preprocess_hamiltonian h_sample (Some [is_identity]) = Ok s
      ∧ (∀ c, (∅, c) ∉ s)
      ∧ length s = if bool_decide ([] ∈ h_sample.*1)
                   then (length h_sample - 1)%nat else length h_sample.
Proof.
  split; [by vm_compute|]. split; [by vm_compute|].
  apply (drop_identity_term_count h_sample); by vm_compute.
Defined.

(** C9 as stated fails on [1.5 [] + 0.0 [Z1]]: the operator has the
    identity term and one other term, but the call raises [StopIteration]
    and returns no sum with one term. *)
Lemma drop_identity_zero_coefficient :
  well_formed h_identity_zero = true
  ∧ [] ∈ h_identity_zero.*1
  ∧ preprocess_hamiltonian h_identity_zero (Some [is_identity]) = Raise StopIteration
  ∧ ¬ ∃ s : PauliSum,
        preprocess_hamiltonian h_identity_zero (Some [is_identity]) = Ok s
        ∧ length s = (length h_identity_zero - 1)%nat.
Proof.
  split; [by vm_compute|]. split; [left|].
  assert (preprocess_hamiltonian h_identity_zero (Some [is_identity])
          = Raise StopIteration) as E by by vm_compute.
  split; [done|]. intros (s & Hs & _). rewrite E in Hs. discriminate.
Qed.

(** C2, amended.  For every sum with at least one term whose coefficients
    all have an imaginary part within [1e-7] of zero,
    [cirq_pauli_sum_to_qiskit_pauli_op] returns an operator with one label
    per term, in the order of iteration.  The label of a term is as long as
    the sum has qubits; its [j]-th character is [I] when the [j]-th qubit
    is not in the term and otherwise the letter of the Pauli on that qubit;
    the coefficient paired with it is the real part of the term's. *)
Theorem convert_labels_and_coefficients (ps : PauliSum) :
  ps ≠ [] ->
  Forall (fun term => (Qcabs (imag (coefficient term)) <= Convert.atol)%Qc) (iter ps) ->
  ∃ op : SparsePauliOp,
    cirq_pauli_sum_to_qiskit_pauli_op ps = Ok op
    ∧ length (paulis op) = length (iter ps)
    ∧ ∀ i term, iter ps !! i = Some term ->
        ∃ s : string,
          paulis op !! i = Some s
          ∧ String.length s = length (qubits ps)
          ∧ (∀ j qubit, qubits ps !! j = Some qubit ->
               String.get j s = Some (letter (qubit_pauli_map term !! qubit)))
          ∧ Qiskit.coeffs op !! i = Some (real (coefficient term)).
Proof.
  intros Hne Hclose.
  assert (Forall (fun term => close term = true) (iter ps)) as Hc.
  { eapply Forall_impl; [exact Hclose|]. intros term. apply close_spec. }
  rewrite (convert_close ps Hc).
  destruct ps as [|vc ps]; [done|]. eexists. split; [reflexivity|].
  cbn [paulis Qiskit.coeffs]. split; [by rewrite length_map|].
  intros i term Hi. exists (label_of (qubits (vc :: ps)) term).
  change (List.map ?f ?l) with (f <$> l). rewrite !list_lookup_fmap, Hi.
  split; [done|]. split; [apply label_of_length|]. split; [|done].
  intros j qubit Hq. by apply label_of_get.
Qed.

Lemma convert_labels_and_coefficients_witness :
  sum_sample ≠ []
  ∧ Forall (fun term => (Qcabs (imag (coefficient term)) <= Convert.atol)%Qc)
      (iter sum_sample)
  ∧ ∃ op : SparsePauliOp,
      cirq_pauli_sum_to_qiskit_pauli_op sum_sample = Ok op
      ∧ length (paulis op) = length (iter sum_sample)
      ∧ ∀ i term, iter sum_sample !! i = Some term ->
          ∃ s : string,
            paulis op !! i = Some s
            ∧ String.length s = length (qubits sum_sample)
            ∧ (∀ j qubit, qubits sum_sample !! j = Some qubit ->
                 String.get j s = Some (letter (qubit_pauli_map term !! qubit)))
            ∧ Qiskit.coeffs op !! i = Some (real (coefficient term)).
Proof.
  assert (Forall (fun term => (Qcabs (imag (coefficient term)) <= Convert.atol)%Qc)
            (iter sum_sample)) as Hclose.
  { repeat constructor; by vm_compute. }
  split; [done|]. split; [exact Hclose|].
  apply (convert_labels_and_coefficients sum_sample); [done | exact Hclose].
Defined.

(** C2 as stated fails on the sum without terms, whose coefficients are
    all within the tolerance: the constructor of [SparsePauliOp] refuses
    the empty list of labels and the call raises. *)
Lemma convert_empty_sum :
  Forall (fun term => (Qcabs (imag (coefficient term)) <= Convert.atol)%Qc)
    (iter ([] : PauliSum))
  ∧ cirq_pauli_sum_to_qiskit_pauli_op [] = Raise QiskitError
  ∧ ¬ ∃ op : SparsePauliOp, cirq_pauli_sum_to_qiskit_pauli_op [] = Ok op.
Proof.
  split; [constructor|]. split; [reflexivity|]. intros (op & Hop). discriminate.
Qed.

(** C8.  [cirq_pauli_sum_to_qiskit_pauli_op] raises [AssertionError]
    exactly when some term of the sum has a coefficient whose imaginary
    part is farther than [1e-7] from zero.  When it returns, the
    coefficients of the result are the real parts of the coefficients of
    the sum, whose imaginary parts are all within the tolerance and appear
    nowhere in the result. *)
Theorem assertion_error_iff (ps : PauliSum) :
  (cirq_pauli_sum_to_qiskit_pauli_op ps = Raise AssertionError ↔
   ∃ term, term ∈ iter ps ∧ (Convert.atol < Qcabs (imag (coefficient term)))%Qc)
  ∧ ∀ op : SparsePauliOp,
      cirq_pauli_sum_to_qiskit_pauli_op ps = Ok op ->
      Qiskit.coeffs op = List.map (fun term => real (coefficient term)) (iter ps)
      ∧ Forall (fun term => (Qcabs (imag (coefficient term)) <= Convert.atol)%Qc)
          (iter ps).
Proof.
  destruct (close_all_or_some (iter ps)) as [Hc|Hf].
  - rewrite (convert_close ps Hc). split.
    + split.
      * intros E. by apply sparse_pauli_op_not_assertion in E.
      * intros (term & Hin & Hfar). apply not_close_spec in Hfar.
        rewrite Forall_forall in Hc. rewrite (Hc term Hin) in Hfar. discriminate.
    + intros op Hop. split.
      * destruct (List.map (label_of (qubits ps)) (iter ps)); [discriminate|].
        simpl in Hop. by injection Hop as <-.
      * eapply Forall_impl; [exact Hc|]. intros term. apply close_spec.
  - rewrite (convert_far ps Hf). split; [|discriminate].
    split; [|done]. intros _. apply Exists_exists in Hf as (term & Hin & Hfar).
    exists term. split; [done|]. by apply not_close_spec.
Qed.

(** C10.  Neither function changes the operator it is given: when the call
    ends, by a return or by an exception, the caller's [hamiltonian] and
    the caller's [pauli_sum] hold what they held at entry. *)
Theorem inputs_unchanged :
  (∀ (h : QubitOperator) (drop_term_if : option (list (term -> bool))),
     Preprocess.hamiltonian (Preprocess.run h drop_term_if).1 = h)
  ∧ (∀ ps : PauliSum, Convert.pauli_sum (Convert.run ps).1 = ps).
Proof.
  split.
  - intros h drop_term_if. unfold Preprocess.run.
    rewrite (for_each_preserves Preprocess.hamiltonian); [done|].
    intros fr t. apply preprocess_body_hamiltonian.
  - intros ps. unfold Convert.run.
    rewrite (for_each_preserves Convert.pauli_sum); [done|].
    intros fr term. apply convert_body_pauli_sum.
Qed.

(** C5.  The number of Trotter steps is [round(S / 0.001)], where [S] is
    the sum of the absolute values of the coefficients of [H] as numpy
    returns it, the quotient is that of the doubles [S] and [0.001], and
    [round] gives the integer nearest to the quotient, the even one of two
    that are equally near.  No other integer is; and when the quotient is
    infinite or not a number the cell raises and reports no number. *)
Theorem nsteps_round_quotient
    (np_abs : spec_float * spec_float -> spec_float)
    (np_sum : list spec_float -> spec_float)
    (H_coeffs : list (spec_float * spec_float)) :
  match SFdiv 53 1024 (np_sum (List.map np_abs H_coeffs)) double_0_001 with
  | S754_nan => nsteps np_abs np_sum H_coeffs = Raise ValueError
  | S754_infinity _ => nsteps np_abs np_sum H_coeffs = Raise OverflowError
  | S754_zero _ => nsteps np_abs np_sum H_coeffs = Ok 0%Z
  | S754_finite s m e =>
      ∃ n : BinNums.Z,
        nsteps np_abs np_sum H_coeffs = Ok n
        ∧ nearest_even (finite_value s m e) n
        ∧ ∀ n' : BinNums.Z, nearest_even (finite_value s m e) n' -> n' = n
  end.
Proof.
  unfold nsteps, error, epsilon. destruct literals as (_ & _ & ->).
  change (Float.div ?a ?b) with (SFdiv 53 1024 a b). unfold Float.float.
  destruct (SFdiv 53 1024 (np_sum (List.map np_abs H_coeffs)) double_0_001)
    as [s|s| |s m e]; [reflexivity..|].
  assert (Float.value (S754_finite s m e) = finite_value s m e) as Ev
    by by destruct s.
  exists (Num.round (finite_value s m e)). split; [by rewrite <- Ev|].
  split; [apply round_nearest|]. intros n' Hn'.
  apply (nearest_even_unique _ _ _ Hn'), round_nearest.
Qed.

(** C4, amended.  When the names [kcommute] and [convert] are bound, the
    cell ends without an exception and [all_shots] holds one row for each
    of [1], [2], [nqubits // 2] and [nqubits], in this order; the row of
    [k] holds, for the accuracies 0.1, 0.01 and 0.001 in this order, the
    quotient of the base count of [k], computed with [epsilon = 1], by the
    square of the accuracy, where accuracy, square and quotient are
    doubles. *)
Theorem all_shots_quotients {Groups GroupsOf Vector : Type}
    (get_si_sets : PauliSum -> nat -> Groups) (to_groups_of : Groups -> GroupsOf)
    (compute_shots : GroupsOf -> Vector -> BinNums.Z -> spec_float) (names : gset string)
    (hamiltonian : PauliSum) (evec : Vector) (nqubits : nat) :
  "kcommute" ∈ names -> "convert" ∈ names ->
  shots_cell get_si_sets to_groups_of compute_shots names hamiltonian evec nqubits
  = (List.map
       (fun k =>
          List.map
            (fun accuracy =>
               SFdiv 53 1024
                 (compute_shots (to_groups_of (get_si_sets hamiltonian k)) evec 1%Z)
                 (SFmul 53 1024 accuracy accuracy))
            [double_0_1; double_0_01; double_0_001])
       [1; 2; nqubits / 2; nqubits]%nat, None).
Proof.
  intros Hk Hc. unfold shots_cell.
  by rewrite (shots_loop_bound _ _ _ _ _ _ _ _ Hk Hc).
Qed.

Lemma all_shots_quotients_witness :
  "kcommute" ∈ ({["kcommute"; "convert"]} : gset string)
  ∧ "convert" ∈ ({["kcommute"; "convert"]} : gset string)
  ∧ shots_cell (fun _ k => k) (fun g => g)
      (fun k (_ : unit) _ => Float.of_int (Z.of_nat k))
      {["kcommute"; "convert"]} sum_sample tt 6
    = (List.map
         (fun k =>
            List.map
              (fun accuracy =>
                 SFdiv 53 1024 (Float.of_int (Z.of_nat k)) (SFmul 53 1024 accuracy accuracy))
              [double_0_1; double_0_01; double_0_001])
         [1; 2; 6 / 2; 6]%nat, None).
Proof.
  assert ("kcommute" ∈ ({["kcommute"; "convert"]} : gset string)) as Hk
    by (apply (bool_decide_unpack _); by vm_compute).
  assert ("convert" ∈ ({["kcommute"; "convert"]} : gset string)) as Hc
    by (apply (bool_decide_unpack _); by vm_compute).
  split; [exact Hk|]. split; [exact Hc|].
  exact (all_shots_quotients (fun _ k => k) (fun g => g)
           (fun k (_ : unit) _ => Float.of_int (Z.of_nat k))
           {["kcommute"; "convert"]} sum_sample tt 6 Hk Hc).
Defined.

(** C4 as stated fails for a base count of [100.0]: at the accuracy 0.1
    the cell records [9999.999999999998], which is not 100 over the square
    of 0.1, and the count recorded at the accuracy 0.01, [1000000.0], is
    not 100 times it, as the inverse square of the accuracy would have
    it. *)
Lemma shots_not_inverse_square :
  shots_cell (fun _ k => k) (fun g => g) (fun _ (_ : unit) _ => double_100)
    {["kcommute"; "convert"]} sum_sample tt 4
  = (replicate 4
       [S754_finite false 5497558138879999 (-39);
        S754_finite false 8589934592000000 (-33);
        S754_finite false 6710886400000000 (-26)], None)
  ∧ Float.value double_100 = q 100 1
  ∧ Float.value (S754_finite false 5497558138879999 (-39)) ≠ (q 100 1 / q 1 10 ^ 2)%Qc
  ∧ Float.value (S754_finite false 8589934592000000 (-33))
    ≠ (q 100 1 * Float.value (S754_finite false 5497558138879999 (-39)))%Qc.
Proof.
  split; [by vm_compute|]. split; [apply Qc_is_canon; by vm_compute|].
  split; by vm_compute.
Qed.

(** * What running the notebook does *)

(** C6.  Run top to bottom in a kernel that has run nothing, the notebook
    builds the molecule and its Hamiltonian, applies the Jordan-Wigner
    transform, builds the first-order Trotter step, and compiles the
    circuit twice, in this order; it then stops in the cell that estimates
    the shots, at the first use of the name [kcommute], which no cell
    imports: no shot count is computed. *)
Theorem run_all_stops_before_shots :
  (Cells.run_all Cells.notebook Cells.fresh).2 = Some (NameError "kcommute")
  ∧ steps (Cells.trace (Cells.run_all Cells.notebook Cells.fresh).1)
    = ["MolecularData"; "run_pyscf"; "MolecularData"; "of.jordan_wigner";
       "LieTrotter"; "PauliEvolutionGate"; "qiskit.transpile"; "qiskit.transpile"]
  ∧ "kcommute.compute_shots" ∉ Cells.trace (Cells.run_all Cells.notebook Cells.fresh).1.
Proof.
  split; [by vm_compute|]. split; [by vm_compute|].
  apply (bool_decide_unpack _). by vm_compute.
Qed.

(** In a kernel where [kcommute] was imported by hand the same run ends
    without an exception, and the shot estimates come last. *)
Lemma run_all_with_kcommute :
  (Cells.run_all Cells.notebook with_kcommute).2 = None
  ∧ steps (Cells.trace (Cells.run_all Cells.notebook with_kcommute).1)
    = ["MolecularData"; "run_pyscf"; "MolecularData"; "of.jordan_wigner";
       "LieTrotter"; "PauliEvolutionGate"; "qiskit.transpile"; "qiskit.transpile";
       "kcommute.compute_shots"; "kcommute.compute_shots";
       "kcommute.compute_shots"; "kcommute.compute_shots"].
Proof. split; by vm_compute. Qed.

(** * Further properties of the notebook's code *)

(** ** The key of a term *)

(** X1.  The key that [preprocess_hamiltonian] builds for a term reads back
    as the term: parsing it gives the term again, two terms with the same
    key are the same term, and [QubitOperator(key, c)] is the operator that
    [QubitOperator(term, c)] is. *)
Theorem key_round_trip :
  (∀ t : term, parse_string (Preprocess.key t) = Ok t)
  ∧ (∀ t1 t2 : term, Preprocess.key t1 = Preprocess.key t2 -> t1 = t2)
  ∧ (∀ (t : term) (c : complex),
       of_string (Preprocess.key t) c = Ok (of_sequence t c)).
Proof.
  split; [exact parse_string_key|]. split.
  - intros t1 t2 E. pose proof (parse_string_key t1) as H1.
    rewrite E, parse_string_key in H1. by injection H1.
  - intros t c. unfold of_string. by rewrite parse_string_key.
Qed.

(** ** The exceptions of [preprocess_hamiltonian] *)

(** X2.  On an operator as openfermion stores it, the call raises
    [StopIteration] exactly when some kept term has the coefficient zero,
    and it raises nothing else. *)
Theorem preprocess_raises_only_stop_iteration
    (h : QubitOperator) (drop_term_if : option (list (term -> bool))) :
  well_formed h = true ->
  (preprocess_hamiltonian h drop_term_if = Raise StopIteration
   ↔ kept_nonzero drop_term_if h = false)
  ∧ ∀ e, preprocess_hamiltonian h drop_term_if = Raise e -> e = StopIteration.
Proof.
  intros Hwf. destruct (kept_nonzero drop_term_if h) eqn:Hnz.
  - rewrite (preprocess_hamiltonian_spec h drop_term_if Hwf Hnz).
    split; [split|]; discriminate.
  - rewrite (preprocess_hamiltonian_stop_iteration h drop_term_if Hwf Hnz).
    split; [done|]. intros e E. by injection E.
Qed.

Lemma preprocess_raises_only_stop_iteration_witness :
  well_formed h_identity_zero = true
  ∧ (preprocess_hamiltonian h_identity_zero (Some [is_identity]) = Raise StopIteration
     ↔ kept_nonzero (Some [is_identity]) h_identity_zero = false)
  ∧ ∀ e, preprocess_hamiltonian h_identity_zero (Some [is_identity]) = Raise e ->
         e = StopIteration.
Proof.
  split; [by vm_compute|].
  apply (preprocess_raises_only_stop_iteration h_identity_zero (Some [is_identity])).
  by vm_compute.
Defined.

(** ** Terms that are dropped *)

Lemma preprocess_loop_dropped (ds : list (term -> bool))
    (ts : list term) (fr : Preprocess.frame) :
  Forall (fun t => Preprocess.add_term ds t = false) ts ->
  for_each (Preprocess.body ds) ts fr = (fr, None).
Proof.
  induction 1 as [|t ts Ht _ IH]; [done|].
  cbn [for_each]. unfold Preprocess.body at 1. by rewrite Ht.
Qed.

(** X3.  When every term is dropped the call returns the sum without
    terms, whatever the operator holds: no coefficient is read and no key
    is built, so neither a zero coefficient nor a key out of order leads to
    an exception. *)
Theorem preprocess_all_dropped
    (h : QubitOperator) (drop_term_if : option (list (term -> bool))) :
  forallb (fun tc => negb (kept drop_term_if tc.1)) h = true ->
  preprocess_hamiltonian h drop_term_if = Ok [].
Proof.
  intros Hd. unfold preprocess_hamiltonian, Preprocess.run.
  rewrite preprocess_loop_dropped; [reflexivity|].
  rewrite forallb_forall in Hd. apply Forall_forall. intros t Ht.
  apply list_elem_of_In, in_map_iff in Ht as ([t' c] & <- & Hin).
  rewrite add_term_kept. apply negb_true_iff. apply (Hd (t', c) Hin).
Qed.

Lemma preprocess_all_dropped_witness :
  forallb (fun tc => negb (kept (Some [drop_all]) tc.1)) h_zero = true
  ∧ preprocess_hamiltonian h_zero (Some [drop_all]) = Ok [].
Proof.
  split; [by vm_compute|].
  apply (preprocess_all_dropped h_zero (Some [drop_all])). by vm_compute.
Defined.

Lemma add_term_permutation (ds ds' : list (term -> bool)) (t : term) :
  ds ≡ₚ ds' -> Preprocess.add_term ds t = Preprocess.add_term ds' t.
Proof.
  rewrite !add_term_kept. induction 1 as [|d ds ds' _ IH|d d' ds|ds1 ds2 ds3 _ IH1 _ IH2].
  - done.
  - simpl. by rewrite IH.
  - simpl. by destruct (d t), (d' t).
  - by rewrite IH1.
Qed.

Lemma for_each_ext {S A : Type} (body body' : S -> A -> S * option exn)
    (xs : list A) (s : S) :
  (∀ s x, body s x = body' s x) -> for_each body xs s = for_each body' xs s.
Proof.
  intros E. revert s. induction xs as [|x xs IH]; intros s; [done|].
  simpl. rewrite E. destruct (body' s x) as [s' [e|]]; [done | apply IH].
Qed.

(** X4.  The order of the predicates does not matter: the [break] of the
    inner loop only saves calls.  For every operator, two lists with the
    same predicates in another order give the same result, be it a sum or
    an exception. *)
Theorem preprocess_predicate_order
    (h : QubitOperator) (ds ds' : list (term -> bool)) :
  ds ≡ₚ ds' ->
  preprocess_hamiltonian h (Some ds) = preprocess_hamiltonian h (Some ds').
Proof.
  intros Hp. unfold preprocess_hamiltonian, Preprocess.run. cbn [default].
  rewrite (for_each_ext (Preprocess.body ds) (Preprocess.body ds')); [done|].
  intros fr t. unfold Preprocess.body. by rewrite (add_term_permutation ds ds' t Hp).
Qed.

Lemma preprocess_predicate_order_witness :
  [is_identity; single_factor] ≡ₚ [single_factor; is_identity]
  ∧ preprocess_hamiltonian h_sample (Some [is_identity; single_factor])
    = preprocess_hamiltonian h_sample (Some [single_factor; is_identity]).
Proof.
  split; [apply perm_swap|].
  apply (preprocess_predicate_order h_sample). apply perm_swap.
Defined.

(** ** The exceptions of [cirq_pauli_sum_to_qiskit_pauli_op] *)

(** X5.  The conversion raises [QiskitError] exactly for the sum without
    terms, and whatever it raises is an [AssertionError] or a
    [QiskitError]: the lookup [term[qubit]] never fails, since it is made
    only for a qubit that is in the term. *)
Theorem convert_exceptions (ps : PauliSum) :
  (cirq_pauli_sum_to_qiskit_pauli_op ps = Raise QiskitError ↔ ps = [])
  ∧ ∀ e, cirq_pauli_sum_to_qiskit_pauli_op ps = Raise e ->
         e = AssertionError ∨ e = QiskitError.
Proof.
  destruct (close_all_or_some (iter ps)) as [Hc|Hf].
  - rewrite (convert_close ps Hc). destruct ps as [|vc ps].
    + split; [done|]. intros e E. right. by injection E.
    + split; [split; discriminate | discriminate].
  - rewrite (convert_far ps Hf). split.
    + split; [discriminate|]. intros ->. by apply Exists_nil in Hf.
    + intros e E. left. by injection E.
Qed.

(** ** The labels *)

Lemma label_of_letters (qubits : list nat) (term : PauliString) :
  Forall (fun ch => ch ∈ pauli_letters) (list_ascii_of_string (label_of qubits term)).
Proof.
  unfold label_of. rewrite list_ascii_of_string_of_list_ascii.
  apply Forall_forall. intros ch Hch.
  apply list_elem_of_In, in_map_iff in Hch as (qubit & <- & _).
  unfold pauli_letters. destruct (qubit_pauli_map term !! qubit) as [[]|]; simpl.
  - right. left.
  - do 2 right. left.
  - do 3 right. left.
  - left.
Qed.

Lemma convert_ok_inv (ps : PauliSum) (op : SparsePauliOp) :
  cirq_pauli_sum_to_qiskit_pauli_op ps = Ok op ->
  paulis op = List.map (label_of (qubits ps)) (iter ps)
  ∧ Qiskit.coeffs op = List.map (fun term => real (coefficient term)) (iter ps).
Proof.
  destruct (close_all_or_some (iter ps)) as [Hc|Hf].
  - rewrite (convert_close ps Hc).
    destruct (List.map (label_of (qubits ps)) (iter ps)); [discriminate|].
    simpl. intros E. by injection E as <-.
  - by rewrite (convert_far ps Hf).
Qed.

(** X6.  What the conversion returns is fit for qiskit: all labels have one
    length, the number of qubits of the sum, and are words over I, X, Y
    and Z; there are as many coefficients as labels; and no position is
    idle, that is, at every position some label has a letter other than
    I. *)
Theorem convert_labels_fit (ps : PauliSum) (op : SparsePauliOp) :
  cirq_pauli_sum_to_qiskit_pauli_op ps = Ok op ->
  Forall (fun s => String.length s = Statistics.nqubits ps
                   ∧ Forall (fun ch => ch ∈ pauli_letters) (list_ascii_of_string s))
    (paulis op)
  ∧ length (Qiskit.coeffs op) = length (paulis op)
  ∧ ∀ j, (j < Statistics.nqubits ps)%nat ->
      ∃ s ch, s ∈ paulis op ∧ String.get j s = Some ch ∧ ch ≠ "I"%char.
Proof.
  intros [Hp Hc]%convert_ok_inv. rewrite Hp, Hc. split; [|split].
  - apply Forall_forall. intros s Hs.
    apply list_elem_of_In, in_map_iff in Hs as (term & <- & _).
    split; [apply label_of_length | apply label_of_letters].
  - by rewrite !length_map.
  - intros j Hj. unfold Statistics.nqubits in Hj.
    apply lookup_lt_is_Some in Hj as [qubit Hq].
    assert (qubit ∈ qubits ps) as Hin by by eapply list_elem_of_lookup_2.
    apply elem_of_qubits in Hin as (m & c & Hmc & [p Hp']).
    exists (label_of (qubits ps) (mkPauliString m c)), (letter (Some p)).
    split; [|split].
    + apply list_elem_of_In, in_map_iff. exists (mkPauliString m c). split; [done|].
      unfold iter. apply in_map_iff. exists (m, c). split; [done|].
      by apply list_elem_of_In.
    + rewrite (label_of_get _ _ _ _ Hq). simpl. by rewrite Hp'.
    + by destruct p.
Qed.

Lemma convert_labels_fit_witness :
  cirq_pauli_sum_to_qiskit_pauli_op sum_sample = Ok op_sample
  ∧ Forall (fun s => String.length s = Statistics.nqubits sum_sample
                     ∧ Forall (fun ch => ch ∈ pauli_letters) (list_ascii_of_string s))
      (paulis op_sample)
  ∧ length (Qiskit.coeffs op_sample) = length (paulis op_sample)
  ∧ ∀ j, (j < Statistics.nqubits sum_sample)%nat ->
      ∃ s ch, s ∈ paulis op_sample ∧ String.get j s = Some ch ∧ ch ≠ "I"%char.
Proof.
  split; [by vm_compute|].
  apply (convert_labels_fit sum_sample op_sample). by vm_compute.
Defined.

(** ** The sum that [preprocess_hamiltonian] returns *)

Lemma NoDup_keys_filter {K V : Type} (P : K * V -> bool) (d : list (K * V)) :
  NoDup d.*1 -> NoDup (List.filter P d).*1.
Proof.
  induction d as [|kv d IH]; [done|]. rewrite fmap_cons.
  intros [Hk Hd]%NoDup_cons. simpl. destruct (P kv); [|by apply IH].
  rewrite fmap_cons. apply NoDup_cons. split; [|by apply IH].
  intros (kv' & E & Hin)%list_elem_of_fmap. apply Hk.
  apply list_elem_of_fmap. exists kv'. split; [done|].
  apply list_elem_of_In in Hin. apply filter_In in Hin as [Hin _].
  by apply list_elem_of_In.
Qed.

Lemma count_qubits_from (h : QubitOperator) (n0 : nat) :
  let n := fold_left
             (fun num_qubits (tc : term * complex) =>
                match last tc.1 with
                | Some f => if (num_qubits <? f.1 + 1)%nat then (f.1 + 1)%nat else num_qubits
                | None => num_qubits
                end) h n0 in
  (n0 <= n)%nat
  ∧ ∀ t c l, (t, c) ∈ h -> last t = Some l -> (l.1 < n)%nat.
Proof.
  revert n0. induction h as [|[t c] h IH]; intros n0.
  - simpl. split; [done|]. intros t c l Hin. by apply elem_of_nil in Hin.
  - cbn [fold_left fst].
    set (n1 := match last t with
               | Some f => if (n0 <? f.1 + 1)%nat then (f.1 + 1)%nat else n0
               | None => n0
               end).
    destruct (IH n1) as [Hle Hall].
    assert (n0 <= n1)%nat as H01.
    { unfold n1. destruct (last t) as [f|]; [|done].
      destruct (Nat.ltb_spec n0 (f.1 + 1)); lia. }
    split; [lia|]. intros t' c' l [E|Hin]%elem_of_cons Hl.
    + injection E as -> ->.
      assert (l.1 + 1 <= n1)%nat as Hl1.
      { unfold n1. rewrite Hl. destruct (Nat.ltb_spec n0 (l.1 + 1)); lia. }
      lia.
    + by eapply Hall.
Qed.

Lemma index_below_count_qubits (h : QubitOperator) (t : term) (c : complex)
    (f : nat * Pauli) :
  canonical t = true -> (t, c) ∈ h -> f ∈ t -> (f.1 < count_qubits h)%nat.
Proof.
  intros Hc Hin Hf. destruct (last t) as [l|] eqn:El.
  - pose proof (canonical_last t l f Hc El Hf).
    destruct (count_qubits_from h 0) as [_ Hall].
    pose proof (Hall t c l Hin El) as Hlt.
    change (l.1 < count_qubits h)%nat in Hlt. lia.
  - apply last_None in El. subst. by apply elem_of_nil in Hf.
Qed.

Lemma preprocess_ok_inv (h : QubitOperator)
    (drop_term_if : option (list (term -> bool))) (s : PauliSum) :
  well_formed h = true ->
  preprocess_hamiltonian h drop_term_if = Ok s ->
  kept_nonzero drop_term_if h = true ∧ s = pauli_sum_of (kept_terms drop_term_if h).
Proof.
  intros Hwf Hs. destruct (kept_nonzero drop_term_if h) eqn:Hnz.
  - rewrite (preprocess_hamiltonian_spec h drop_term_if Hwf Hnz) in Hs.
    split; [done|]. by injection Hs.
  - by rewrite (preprocess_hamiltonian_stop_iteration h drop_term_if Hwf Hnz) in Hs.
Qed.

Lemma elem_of_qubits_pauli_sum_of (hk : QubitOperator) (qubit : nat) :
  (∀ tc, tc ∈ hk -> canonical tc.1 = true) ->
  qubit ∈ qubits (pauli_sum_of hk) ↔ ∃ t c p, (t, c) ∈ hk ∧ (qubit, p) ∈ t.
Proof.
  intros Hcan. rewrite elem_of_qubits. unfold pauli_sum_of. split.
  - intros (m & c & ([t c'] & E & Hin)%list_elem_of_In%in_map_iff & [p Hp]).
    simpl in E. injection E as <- <-. exists t, c', p.
    apply list_elem_of_In in Hin. split; [done|].
    by apply term_map_lookup; [apply (Hcan (t, c'))|].
  - intros (t & c & p & Hin & Hp). exists (term_map t), c. split.
    + apply list_elem_of_In, in_map_iff. exists (t, c). split; [done|].
      by apply list_elem_of_In.
    + exists p. by apply term_map_lookup; [apply (Hcan (t, c))|].
Qed.

(** X7.  The sum that [preprocess_hamiltonian] returns for an operator as
    openfermion stores it has one term for each kept term, so that no two
    kept terms fall together, and no coefficient zero; its qubits are those
    on which some kept term acts.  The numbers of cell 16 follow: [nterms]
    is the number of kept terms and [nqubits], which counts the qubits
    acted on, is at most [count_qubits(h)], the largest index plus one. *)
Theorem preprocess_statistics (h : QubitOperator)
    (drop_term_if : option (list (term -> bool))) (s : PauliSum) :
  well_formed h = true ->
  preprocess_hamiltonian h drop_term_if = Ok s ->
  NoDup s.*1
  ∧ Forall (fun vc => nonzero vc.2 = true) s
  ∧ Statistics.nterms s = length (kept_terms drop_term_if h)
  ∧ (∀ qubit, qubit ∈ qubits s ↔
       ∃ t c p, (t, c) ∈ h ∧ kept drop_term_if t = true ∧ (qubit, p) ∈ t)
  ∧ (Statistics.nqubits s <= count_qubits h)%nat.
Proof.
  intros Hwf Hs. destruct (preprocess_ok_inv h drop_term_if s Hwf Hs) as [Hnz ->].
  pose proof Hwf as [Hcan Hnd]%well_formed_spec.
  assert (∀ tc, tc ∈ kept_terms drop_term_if h -> canonical tc.1 = true) as Hcank.
  { intros tc [Hin _]%elem_of_kept_terms. by apply Hcan. }
  assert (∀ qubit, qubit ∈ qubits (pauli_sum_of (kept_terms drop_term_if h)) ↔
            ∃ t c p, (t, c) ∈ h ∧ kept drop_term_if t = true ∧ (qubit, p) ∈ t) as Hq.
  { intros qubit. rewrite (elem_of_qubits_pauli_sum_of _ _ Hcank). split.
    - intros (t & c & p & [Hin Hk]%elem_of_kept_terms & Hp). by exists t, c, p.
    - intros (t & c & p & Hin & Hk & Hp). exists t, c, p. split; [|done].
      by apply elem_of_kept_terms. }
  split; [|split; [|split; [|split]]].
  - unfold pauli_sum_of. change (List.map ?f ?l) with (f <$> l).
    rewrite <- list_fmap_compose.
    change (fst ∘ (fun tc : term * complex => (term_map tc.1, tc.2)))
      with (term_map ∘ (fst : term * complex -> term)).
    rewrite list_fmap_compose. apply NoDup_fmap_2_strong.
    + intros t1 t2 (tc1 & -> & H1)%list_elem_of_fmap (tc2 & -> & H2)%list_elem_of_fmap.
      apply term_map_inj; by apply Hcank.
    + by apply NoDup_keys_filter.
  - apply Forall_forall. intros [m c] ([t c'] & E & Hin)%list_elem_of_In%in_map_iff.
    simpl in E. injection E as <- <-. apply list_elem_of_In in Hin.
    apply elem_of_kept_terms in Hin as [Hin Hk].
    by apply (proj1 (kept_nonzero_spec _ _) Hnz t c').
  - unfold Statistics.nterms, pauli_sum_of. by rewrite length_map.
  - exact Hq.
  - unfold Statistics.nqubits.
    trans (length (seq 0%nat (count_qubits h))); [|by rewrite length_seq].
    apply submseteq_length, NoDup_submseteq; [apply qubits_NoDup|].
    intros qubit (t & c & p & Hin & _ & Hp)%Hq. apply elem_of_seq.
    pose proof (index_below_count_qubits h t c (qubit, p) (Hcan (t, c) Hin) Hin Hp).
    simpl in *. lia.
Qed.

Lemma preprocess_statistics_witness :
  well_formed h_sample = true
  ∧ preprocess_hamiltonian h_sample (Some [is_identity]) = Ok sum_sample
  ∧ NoDup sum_sample.*1
  ∧ Forall (fun vc => nonzero vc.2 = true) sum_sample
  ∧ Statistics.nterms sum_sample = length (kept_terms (Some [is_identity]) h_sample)
  ∧ (∀ qubit, qubit ∈ qubits sum_sample ↔
       ∃ t c p, (t, c) ∈ h_sample ∧ kept (Some [is_identity]) t = true ∧ (qubit, p) ∈ t)
  ∧ (Statistics.nqubits sum_sample <= count_qubits h_sample)%nat.
Proof.
  split; [by vm_compute|]. split; [by vm_compute|].
  apply (preprocess_statistics h_sample (Some [is_identity]) sum_sample); by vm_compute.
Defined.

(** The sample: three qubits are acted on, the largest index is 12. *)
Example statistics_sample :
  Statistics.nterms sum_sample = 2%nat ∧ Statistics.nqubits sum_sample = 3%nat
  ∧ count_qubits h_sample = 13%nat.
Proof. by vm_compute. Qed.

(** ** From the qubit operator to the labels *)

Lemma iter_pauli_sum_of (hk : QubitOperator) :
  iter (pauli_sum_of hk) = List.map (fun tc => mkPauliString (term_map tc.1) tc.2) hk.
Proof. unfold iter, pauli_sum_of. rewrite List.map_map. reflexivity. Qed.

Lemma sparse_pauli_op_nonempty (data : list string) (cs : list Qc) :
  data ≠ [] -> sparse_pauli_op data cs = Ok (mkSparsePauliOp data cs).
Proof. by destruct data. Qed.

(** X8.  Preprocessing and conversion in a row, for an operator as
    openfermion stores it whose kept terms are at least one, have
    coefficients other than zero and imaginary parts within [1e-7] of
    zero: the result has one label and one coefficient per kept term, in
    the order of [h.terms]; the coefficient is the real part of the
    term's; the positions of a label stand for the qubits acted on by kept
    terms, by increasing index, and the label of a term has at the position
    of a qubit the letter of the term's factor on that qubit, or I when the
    term has none. *)
Theorem converted_hamiltonian_labels
    (h : QubitOperator) (drop_term_if : option (list (term -> bool))) :
  well_formed h = true ->
  kept_nonzero drop_term_if h = true ->
  kept_terms drop_term_if h ≠ [] ->
  Forall (fun tc : term * complex => (Qcabs (imag tc.2) <= Convert.atol)%Qc)
    (kept_terms drop_term_if h) ->
  let positions := qubits (pauli_sum_of (kept_terms drop_term_if h)) in
  Sorted Nat.le positions ∧ NoDup positions
  ∧ ∃ op : SparsePauliOp,
      converted_hamiltonian h drop_term_if = Ok op
      ∧ Qiskit.coeffs op = List.map (fun tc => real tc.2) (kept_terms drop_term_if h)
      ∧ length (paulis op) = length (kept_terms drop_term_if h)
      ∧ ∀ i t c, kept_terms drop_term_if h !! i = Some (t, c) ->
          ∃ s : string,
            paulis op !! i = Some s
            ∧ String.length s = length positions
            ∧ ∀ j qubit, positions !! j = Some qubit ->
                (∀ p, (qubit, p) ∈ t -> String.get j s = Some (letter (Some p)))
                ∧ ((∀ p, (qubit, p) ∉ t) -> String.get j s = Some "I"%char).
Proof.
  intros Hwf Hnz Hne Him positions.
  split; [apply qubits_sorted|]. split; [apply qubits_NoDup|].
  pose proof Hwf as [Hcan _]%well_formed_spec.
  unfold converted_hamiltonian.
  rewrite (preprocess_hamiltonian_spec h drop_term_if Hwf Hnz). cbn [mbind result_bind].
  set (hk := kept_terms drop_term_if h) in *.
  assert (Forall (fun term => close term = true) (iter (pauli_sum_of hk))) as Hc.
  { rewrite iter_pauli_sum_of. apply Forall_forall.
    intros term ([t c] & <- & Hin)%list_elem_of_In%in_map_iff.
    apply close_spec. simpl. rewrite Forall_forall in Him.
    by apply (Him (t, c)), list_elem_of_In. }
  rewrite (convert_close _ Hc), iter_pauli_sum_of, !List.map_map.
  rewrite sparse_pauli_op_nonempty
    by (destruct hk; [done | discriminate]).
  eexists. split; [reflexivity|]. cbn [paulis Qiskit.coeffs].
  split; [done|]. split; [by rewrite length_map|].
  intros i t c Hi. exists (label_of positions (mkPauliString (term_map t) c)).
  change (List.map ?f ?l) with (f <$> l).
  split; [apply list_lookup_fmap_Some; by exists (t, c)|].
  split; [apply label_of_length|].
  intros j qubit Hq. rewrite (label_of_get _ _ _ _ Hq). cbn [qubit_pauli_map fst].
  assert (canonical t = true) as Hct.
  { apply (Hcan (t, c)). apply list_elem_of_lookup_2 in Hi.
    by apply elem_of_kept_terms in Hi as [? _]. }
  split.
  - intros p Hp. by rewrite (proj2 (term_map_lookup t qubit p Hct) Hp).
  - intros Hno. destruct (term_map t !! qubit) as [p|] eqn:E; [|done].
    apply term_map_lookup in E; [|done]. by destruct (Hno p).
Qed.

Lemma converted_hamiltonian_labels_witness :
  well_formed h_sample = true
  ∧ kept_nonzero (Some [is_identity]) h_sample = true
  ∧ kept_terms (Some [is_identity]) h_sample ≠ []
  ∧ Forall (fun tc : term * complex => (Qcabs (imag tc.2) <= Convert.atol)%Qc)
      (kept_terms (Some [is_identity]) h_sample)
  ∧ let positions := qubits (pauli_sum_of (kept_terms (Some [is_identity]) h_sample)) in
    Sorted Nat.le positions ∧ NoDup positions
    ∧ ∃ op : SparsePauliOp,
        converted_hamiltonian h_sample (Some [is_identity]) = Ok op
        ∧ Qiskit.coeffs op
          = List.map (fun tc => real tc.2) (kept_terms (Some [is_identity]) h_sample)
        ∧ length (paulis op) = length (kept_terms (Some [is_identity]) h_sample)
        ∧ ∀ i t c, kept_terms (Some [is_identity]) h_sample !! i = Some (t, c) ->
            ∃ s : string,
              paulis op !! i = Some s
              ∧ String.length s = length positions
              ∧ ∀ j qubit, positions !! j = Some qubit ->
                  (∀ p, (qubit, p) ∈ t -> String.get j s = Some (letter (Some p)))
                  ∧ ((∀ p, (qubit, p) ∉ t) -> String.get j s = Some "I"%char).
Proof.
  assert (Forall (fun tc : term * complex => (Qcabs (imag tc.2) <= Convert.atol)%Qc)
            (kept_terms (Some [is_identity]) h_sample)) as Him.
  { repeat constructor; by vm_compute. }
  split; [by vm_compute|]. split; [by vm_compute|]. split; [by vm_compute|].
  split; [exact Him|].
  apply (converted_hamiltonian_labels h_sample (Some [is_identity]));
    [by vm_compute | by vm_compute | by vm_compute | exact Him].
Defined.

(** The sample operator without its identity term becomes [op_sample]:
    qubit 12 is at the third position. *)
Example converted_hamiltonian_sample :
  converted_hamiltonian h_sample (Some [is_identity]) = Ok op_sample.
Proof. by vm_compute. Qed.

(** ** Distinct terms get distinct labels *)

Lemma letter_inj (o1 o2 : option Pauli) : letter o1 = letter o2 -> o1 = o2.
Proof. by destruct o1 as [[]|], o2 as [[]|]. Qed.

(** Over a list of qubits that holds the qubits of both terms, the label
    tells the term. *)
Lemma label_of_inj (qs : list nat) (t1 t2 : PauliString) :
  (∀ qubit, is_Some (qubit_pauli_map t1 !! qubit) -> qubit ∈ qs) ->
  (∀ qubit, is_Some (qubit_pauli_map t2 !! qubit) -> qubit ∈ qs) ->
  label_of qs t1 = label_of qs t2 -> qubit_pauli_map t1 = qubit_pauli_map t2.
Proof.
  intros H1 H2 E. apply map_eq. intros qubit.
  destruct (decide (qubit ∈ qs)) as [Hin|Hout].
  - apply list_elem_of_lookup in Hin as [j Hj]. apply letter_inj.
    pose proof (label_of_get qs t1 j qubit Hj) as G1.
    pose proof (label_of_get qs t2 j qubit Hj) as G2.
    rewrite E in G1. rewrite G1 in G2. by injection G2.
  - destruct (qubit_pauli_map t1 !! qubit) eqn:E1; [by destruct Hout; apply H1|].
    destruct (qubit_pauli_map t2 !! qubit) eqn:E2; [by destruct Hout; apply H2|].
    done.
Qed.

Lemma label_of_empty (qs : list nat) (term : PauliString) :
  (∀ qubit, is_Some (qubit_pauli_map term !! qubit) -> qubit ∈ qs) ->
  qubit_pauli_map term = ∅ ↔
  label_of qs term = string_of_list_ascii (replicate (length qs) "I"%char).
Proof.
  intros Hin. split.
  - intros E. unfold label_of. f_equal. rewrite E. clear.
    induction qs as [|qubit qs IH]; [done|]. simpl. by rewrite IH, lookup_empty.
  - intros E. apply map_eq. intros qubit. rewrite lookup_empty.
    destruct (qubit_pauli_map term !! qubit) as [p|] eqn:Ep; [|done].
    destruct (list_elem_of_lookup_1 qs qubit) as [j Hj]; [by apply Hin|].
    pose proof (label_of_get qs term j qubit Hj) as G.
    rewrite E, get_string_of_list_ascii, Ep in G.
    rewrite lookup_replicate_2 in G by by eapply lookup_lt_Some. by destruct p.
Qed.

Lemma labels_NoDup (ps : PauliSum) :
  NoDup ps.*1 -> NoDup (List.map (label_of (qubits ps)) (iter ps)).
Proof.
  intros Hnd. unfold iter. rewrite List.map_map.
  assert (∀ m c, (m, c) ∈ ps ->
            ∀ qubit, is_Some (m !! qubit) -> qubit ∈ qubits ps) as Hdom.
  { intros m c Hin qubit Hq. apply elem_of_qubits. by exists m, c. }
  change (List.map ?f ?l) with (f <$> l). apply NoDup_fmap_2_strong.
  - intros [m1 c1] [m2 c2] H1 H2 E.
    apply label_of_inj in E; [|by apply (Hdom m1 c1) | by apply (Hdom m2 c2)].
    simpl in E. subst m2. f_equal.
    apply list_elem_of_lookup in H1 as [i1 H1], H2 as [i2 H2].
    assert (i1 = i2) as ->; [|congruence].
    apply (NoDup_lookup ps.*1 i1 i2 m1 Hnd); by rewrite list_lookup_fmap, ?H1, ?H2.
  - by apply NoDup_fmap_1 in Hnd.
Qed.

(** X11.  For a sum whose terms are distinct, as the terms of a
    [cirq.PauliSum] are, the labels of the converted operator are distinct;
    and the label of a term is all I exactly when the term is the
    identity. *)
Theorem convert_labels_distinct (ps : PauliSum) (op : SparsePauliOp) :
  NoDup ps.*1 ->
  cirq_pauli_sum_to_qiskit_pauli_op ps = Ok op ->
  NoDup (paulis op)
  ∧ ∀ i m c, ps !! i = Some (m, c) ->
      ∃ s, paulis op !! i = Some s
           ∧ (m = ∅ ↔ s = string_of_list_ascii (replicate (Statistics.nqubits ps) "I"%char)).
Proof.
  intros Hnd [Hp _]%convert_ok_inv. rewrite Hp. split; [by apply labels_NoDup|].
  unfold iter. rewrite List.map_map. change (List.map ?f ?l) with (f <$> l).
  intros i m c Hi. eexists. split.
  - apply list_lookup_fmap_Some. by exists (m, c).
  - apply (label_of_empty (qubits ps) (mkPauliString m c)).
    intros qubit Hq. apply elem_of_qubits. exists m, c. split; [|done].
    by eapply list_elem_of_lookup_2.
Qed.

Lemma convert_labels_distinct_witness :
  NoDup sum_sample.*1
  ∧ cirq_pauli_sum_to_qiskit_pauli_op sum_sample = Ok op_sample
  ∧ NoDup (paulis op_sample)
  ∧ ∀ i m c, sum_sample !! i = Some (m, c) ->
      ∃ s, paulis op_sample !! i = Some s
           ∧ (m = ∅ ↔
              s = string_of_list_ascii (replicate (Statistics.nqubits sum_sample) "I"%char)).
Proof.
  assert (NoDup sum_sample.*1) as Hnd.
  { apply (bool_decide_unpack _). by vm_compute. }
  assert (cirq_pauli_sum_to_qiskit_pauli_op sum_sample = Ok op_sample) as Hop
    by by vm_compute.
  split; [exact Hnd|]. split; [exact Hop|].
  exact (convert_labels_distinct sum_sample op_sample Hnd Hop).
Defined.

(** ** The identity dropped *)

Lemma pauli_sum_of_keys_NoDup (hk : QubitOperator) :
  (∀ tc, tc ∈ hk -> canonical tc.1 = true) -> NoDup hk.*1 -> NoDup (pauli_sum_of hk).*1.
Proof.
  intros Hcan Hnd. unfold pauli_sum_of. change (List.map ?f ?l) with (f <$> l).
  rewrite <- list_fmap_compose.
  change (fst ∘ (fun tc : term * complex => (term_map tc.1, tc.2)))
    with (term_map ∘ (fst : term * complex -> term)).
  rewrite list_fmap_compose. apply NoDup_fmap_2_strong; [|done].
  intros t1 t2 (tc1 & -> & H1)%list_elem_of_fmap (tc2 & -> & H2)%list_elem_of_fmap.
  apply term_map_inj; by apply Hcan.
Qed.

Lemma converted_hamiltonian_ok_inv (h : QubitOperator)
    (drop_term_if : option (list (term -> bool))) (op : SparsePauliOp) :
  well_formed h = true ->
  converted_hamiltonian h drop_term_if = Ok op ->
  let hk := kept_terms drop_term_if h in
  paulis op
  = List.map (fun tc : term * complex =>
                label_of (qubits (pauli_sum_of hk)) (mkPauliString (term_map tc.1) tc.2)) hk
  ∧ Qiskit.coeffs op = List.map (fun tc : term * complex => real tc.2) hk.
Proof.
  intros Hwf Hop hk. unfold converted_hamiltonian in Hop.
  destruct (preprocess_hamiltonian h drop_term_if) as [s|e] eqn:Hs; [|done].
  cbn [mbind result_bind] in Hop.
  destruct (preprocess_ok_inv h drop_term_if s Hwf Hs) as [_ ->].
  apply convert_ok_inv in Hop as [Hp Hc]. fold hk in Hp, Hc.
  rewrite Hp, Hc, iter_pauli_sum_of, !List.map_map. done.
Qed.

(** X12.  [preprocess_hamiltonian] with the notebook's predicate, which
    drops the identity term, followed by the function
    [cirq_pauli_sum_to_qiskit_pauli_op] that the notebook defines: in the
    operator that comes out no label occurs twice and none is all I. *)
Theorem identity_dropped_labels (h : QubitOperator) (op : SparsePauliOp) :
  well_formed h = true ->
  converted_hamiltonian h (Some [is_identity]) = Ok op ->
  NoDup (paulis op)
  ∧ (∀ s, s ∈ paulis op -> ∃ j ch, String.get j s = Some ch ∧ ch ≠ "I"%char).
Proof.
  intros Hwf Hop.
  destruct (converted_hamiltonian_ok_inv h _ op Hwf Hop) as [Hp Hc].
  pose proof Hwf as [Hcan Hnd]%well_formed_spec.
  set (hk := kept_terms (Some [is_identity]) h) in *.
  assert (∀ tc, tc ∈ hk -> canonical tc.1 = true) as Hcank.
  { intros tc [Hin _]%elem_of_kept_terms. by apply Hcan. }
  split.
  - rewrite Hp, <- (List.map_map (fun tc : term * complex => mkPauliString (term_map tc.1) tc.2)),
      <- iter_pauli_sum_of.
    apply labels_NoDup, pauli_sum_of_keys_NoDup; [done|].
    by apply NoDup_keys_filter.
  - intros s Hs. rewrite Hp in Hs.
    apply list_elem_of_In, in_map_iff in Hs as ([t c] & <- & Hin%list_elem_of_In).
    pose proof Hin as [_ Hk]%elem_of_kept_terms.
    assert (is_identity t = false) as Hid.
    { unfold kept in Hk. simpl in Hk. by destruct (is_identity t). }
    apply bool_decide_eq_false in Hid.
    destruct t as [|[qubit p] t]; [done|].
    assert (qubit ∈ qubits (pauli_sum_of hk)) as Hq.
    { apply (elem_of_qubits_pauli_sum_of _ _ Hcank).
      exists ((qubit, p) :: t), c, p. split; [done | left]. }
    apply list_elem_of_lookup in Hq as [j Hj]. exists j, (letter (Some p)).
    rewrite (label_of_get _ _ _ _ Hj). cbn [qubit_pauli_map fst]. split; [|by destruct p].
    rewrite (proj2 (term_map_lookup ((qubit, p) :: t) qubit p (Hcank _ Hin))); [done|left].
Qed.

Lemma identity_dropped_labels_witness :
  well_formed h_sample = true
  ∧ converted_hamiltonian h_sample (Some [is_identity]) = Ok op_sample
  ∧ NoDup (paulis op_sample)
  ∧ (∀ s, s ∈ paulis op_sample -> ∃ j ch, String.get j s = Some ch ∧ ch ≠ "I"%char).
Proof.
  split; [by vm_compute|]. split; [by vm_compute|].
  apply (identity_dropped_labels h_sample op_sample); by vm_compute.
Defined.

(** ** The cell "Number of shots" *)

(** X13.  The cell that estimates the shots does all or nothing.  With
    [kcommute] and [convert] bound it ends without an exception and leaves
    four rows of three counts in [all_shots].  Otherwise it stops in the
    first round with [all_shots] empty: at the name [kcommute] when that is
    not bound, and else at the name [convert]. *)
Theorem shots_cell_all_or_nothing {Groups GroupsOf Vector : Type}
    (get_si_sets : PauliSum -> nat -> Groups) (to_groups_of : Groups -> GroupsOf)
    (compute_shots : GroupsOf -> Vector -> BinNums.Z -> spec_float) (names : gset string)
    (hamiltonian : PauliSum) (evec : Vector) (nqubits : nat) :
  let cell := shots_cell get_si_sets to_groups_of compute_shots names
                hamiltonian evec nqubits in
  ("kcommute" ∈ names ∧ "convert" ∈ names
   ∧ cell.2 = None ∧ length cell.1 = 4%nat
   ∧ Forall (fun shots => length shots = 3%nat) cell.1)
  ∨ (("kcommute" ∉ names) ∧ cell = ([], Some (NameError "kcommute")))
  ∨ ("kcommute" ∈ names ∧ ("convert" ∉ names)
     ∧ cell = ([], Some (NameError "convert"))).
Proof.
  intros cell. subst cell. unfold shots_cell.
  destruct (decide ("kcommute" ∈ names)) as [Hk|Hk];
    [destruct (decide ("convert" ∈ names)) as [Hc|Hc]|].
  - left. split; [done|]. split; [done|].
    rewrite (shots_loop_bound _ _ _ _ _ _ _ _ Hk Hc). cbn [app fst snd].
    split; [done|]. split; [done|]. by repeat constructor.
  - right. right. split; [done|]. split; [done|].
    unfold kvals. cbn [for_each]. unfold shots_body at 1.
    by rewrite decide_True, decide_False by done.
  - right. left. split; [done|].
    unfold kvals. cbn [for_each]. unfold shots_body at 1.
    by rewrite decide_False by done.
Qed.

(** X14.  The values of [k] that the cell asks for all lie between 1 and
    [nqubits] exactly when there are at least two qubits: with one qubit
    the list is [1, 2, 0, 1], with none [1, 2, 0, 0]. *)
Theorem kvals_in_range (nqubits : nat) :
  Forall (fun k => (1 <= k)%nat ∧ (k <= nqubits)%nat) (kvals nqubits)
  ↔ (2 <= nqubits)%nat.
Proof.
  unfold kvals. rewrite !Forall_cons, Forall_nil.
  assert (2 <= nqubits -> 1 <= nqubits / 2)%nat as Hlo.
  { intros Hn. apply (Nat.div_le_lower_bound nqubits 2 1); lia. }
  assert (nqubits / 2 <= nqubits)%nat as Hhi.
  { apply Nat.Div0.div_le_upper_bound. lia. }
  split; [lia|]. intros Hn. specialize (Hlo Hn). lia.
Qed.
